(** * Session coordination core of the full-app template

    A shallow embedding of [session.ts] (class [Session]) and of the
    WebSocket handlers of [server.ts] from the full-app template, with the
    properties of the session coordinator, its broadcast channel, the
    metadata rows and the eviction timers.

    Layout:
    - the data the code passes around (SDK messages, WebSocket payloads,
      database rows, the [Session] object);
    - the synchronous methods of [Session];
    - [addUserMessage] as a cooperative state machine ([Coordinator]): every
      [await] is a suspension point and the scheduler's choices are events;
    - the server ([Server]): the [sessions] map, the heap of [Session]
      objects and the pending [setTimeout] callbacks. *)

From stdpp Require Import gmap strings list fin_maps.
From Stdlib Require Import ZArith Lia.

(** ** Data *)

(** A [ServerWebSocket] is known by its identity only. *)
Definition conn := nat.

(** Opaque JavaScript payloads that the code forwards without looking
    inside ([block.input], [message.result], [message.total_cost_usd], ...).
    A field that an object literal does not mention reads as [VUndefined]. *)
Inductive value :=
| VUndefined
| VNull
| VBool (b : bool)
| VNum (n : Z)
| VStr (s : string).

(** One element of [message.message.content] when it is an array.
    [OtherBlock] stands for a block whose [type] is neither ['text'] nor
    ['tool_use']. *)
Inductive content_block :=
| TextBlock (text : string)
| ToolUseBlock (name id : string) (input : value)
| OtherBlock.

(** [message.message.content]: a string, an array of blocks, or anything
    else. *)
Inductive msg_content :=
| StrContent (s : string)
| ArrContent (blocks : list content_block)
| NoContent.

(** What [aiClient.queryStream] yields, by [message.type]. *)
Inductive sdk_message :=
| SystemMsg (subtype : string) (session_id : string)
| AssistantMsg (content : msg_content)
| UserMsg (content : msg_content)
| ResultMsg (subtype : string) (result total_cost_usd duration_ms : value)
| OtherMsg.

(** The objects handed to [ws.send] (after [JSON.stringify]); the
    constructor is the [type] field. *)
Inductive ws_message :=
| assistant_message (content : string) (sessionId : string)
| tool_use (toolName toolId : string) (toolInput : value) (sessionId : string)
| result (success : bool) (result cost duration error : value)
         (sessionId : string)
| user_message (content : msg_content) (sessionId : string)
| error_message (error : string) (sessionId : string)
| session_info (sessionId : string) (messageCount : nat) (isActive : bool).

(** A row of the [sessions] table; the key [id] is the key of the map. *)
Record Row := mkRow {
  session_id : option string;
  created_at : Z;
  last_active_at : Z;
  message_count : nat
}.

(** [INSERT OR IGNORE INTO sessions VALUES (?, ?, ?, ?, ?)] *)
Definition insert_or_ignore (db : gmap string Row) (key : string) (r : Row)
  : gmap string Row :=
  match db !! key with
  | Some _ => db
  | None => <[key := r]> db
  end.

(** [UPDATE sessions SET session_id = ?, last_active_at = ?,
    message_count = ? WHERE id = ?] *)
Definition update_session (db : gmap string Row) (tok : option string)
    (now : Z) (count : nat) (key : string) : gmap string Row :=
  match db !! key with
  | Some r => <[key := mkRow tok (created_at r) now count]> db
  | None => db
  end.

(** The transport: which sockets currently throw on [send], and every call
    of [ws.send] so far with its outcome ([true]: delivered). *)
Record Net := mkNet {
  failing : list conn;
  attempts : list (conn * ws_message * bool)
}.

Definition accepts (net : Net) (ws : conn) : bool :=
  negb (bool_decide (ws ∈ failing net)).

(** [ws.send(m)] inside a [try]: the new transport and whether the call
    returned ([false]: it threw). *)
Definition ws_send (net : Net) (ws : conn) (m : ws_message) : Net * bool :=
  (mkNet (failing net) (attempts net ++ [(ws, m, accepts net ws)]),
   accepts net ws).

(** The fields of a [Session] object. [queryPromise] holds the number of the
    [addUserMessage] call whose async block created the promise;
    [subscribers] is a JavaScript [Set], kept in insertion order. *)
Record Session := mkSession {
  id : string;
  queryPromise : option nat;
  subscribers : list conn;
  messageCount : nat;
  sdkSessionId : option string
}.

Definition with_queryPromise (s : Session) (p : option nat) : Session :=
  mkSession (id s) p (subscribers s) (messageCount s) (sdkSessionId s).
Definition with_subscribers (s : Session) (l : list conn) : Session :=
  mkSession (id s) (queryPromise s) l (messageCount s) (sdkSessionId s).
Definition with_messageCount (s : Session) (n : nat) : Session :=
  mkSession (id s) (queryPromise s) (subscribers s) n (sdkSessionId s).
Definition with_sdkSessionId (s : Session) (t : option string) : Session :=
  mkSession (id s) (queryPromise s) (subscribers s) (messageCount s) t.

(** [Set.prototype.add] and [Set.prototype.delete]. *)
Definition set_add (ws : conn) (l : list conn) : list conn :=
  if bool_decide (ws ∈ l) then l else l ++ [ws].
Definition set_delete (ws : conn) (l : list conn) : list conn :=
  filter (λ x, x ≠ ws) l.

(** ** The synchronous methods of [Session] *)

(** [constructor(id, db, aiClient)]; [now] is what both calls of
    [Date.now()] in the [INSERT] return. *)
Definition new_Session (id : string) (db : gmap string Row) (now : Z)
  : Session * gmap string Row :=
  (mkSession id None [] 0 None,
   insert_or_ignore db id (mkRow None now now 0)).

Definition subscribe (s : Session) (net : Net) (ws : conn) : Session * Net :=
  let s' := with_subscribers s (set_add ws (subscribers s)) in
  (s', fst (ws_send net ws
              (session_info (id s') (messageCount s')
                            (bool_decide (queryPromise s' ≠ None))))).

(** The method has no [return]: its value is [undefined]. *)
Definition unsubscribe (s : Session) (ws : conn) : Session * value :=
  (with_subscribers s (set_delete ws (subscribers s)), VUndefined).

Definition hasSubscribers (s : Session) : bool :=
  bool_decide (0 < length (subscribers s)).

Definition cleanup (s : Session) : Session := with_subscribers s [].

Definition reset (s : Session) : Session :=
  with_messageCount (with_queryPromise (with_sdkSessionId s None) None) 0.

(** [broadcast]: the [for (const ws of this.subscribers)] loop. [todo] are
    the elements still to visit, [subs] the set as it is now. *)
Fixpoint broadcast_loop (todo subs : list conn) (net : Net) (m : ws_message)
  : list conn * Net :=
  match todo with
  | [] => (subs, net)
  | ws :: rest =>
      let '(net', ok) := ws_send net ws m in
      broadcast_loop rest (if ok then subs else set_delete ws subs) net' m
  end.

Definition broadcast (s : Session) (net : Net) (m : ws_message)
  : Session * Net :=
  let '(subs, net') := broadcast_loop (subscribers s) (subscribers s) net m in
  (with_subscribers s subs, net').

Definition broadcastError (s : Session) (net : Net) (error : string)
  : Session * Net :=
  broadcast s net (error_message error (id s)).

(** The value of [wsMessage] after the two [if]s on [block.type]. *)
Definition block_wsMessage (sid : string) (block : content_block)
  : option ws_message :=
  match block with
  | TextBlock text => Some (assistant_message text sid)
  | ToolUseBlock name bid input => Some (tool_use name bid input sid)
  | OtherBlock => None
  end.

(** The [for (const block of content)] loop of [broadcastToSubscribers]. *)
Fixpoint broadcast_blocks (s : Session) (net : Net)
    (blocks : list content_block) : Session * Net :=
  match blocks with
  | [] => (s, net)
  | block :: rest =>
      match block_wsMessage (id s) block with
      | Some wsMessage =>
          let '(s', net') := broadcast s net wsMessage in
          broadcast_blocks s' net' rest
      | None => broadcast_blocks s net rest
      end
  end.

Definition broadcastToSubscribers (s : Session) (net : Net)
    (message : sdk_message) : Session * Net :=
  match message with
  | AssistantMsg content =>
      match content with
      | StrContent c => broadcast s net (assistant_message c (id s))
      | ArrContent blocks => broadcast_blocks s net blocks
      | NoContent => (s, net)
      end
  | ResultMsg subtype res cost dur =>
      if bool_decide (subtype = "success")
      then broadcast s net (result true res cost dur VUndefined (id s))
      else broadcast s net
             (result false VUndefined VUndefined VUndefined (VStr subtype)
                     (id s))
  | UserMsg content => broadcast s net (user_message content (id s))
  | SystemMsg _ _ => (s, net)
  | OtherMsg => (s, net)
  end.

(** The options of the engine invocation: [this.sdkSessionId ? { resume:
    this.sdkSessionId } : {}]; the empty string is falsy. *)
Definition resume_option (s : Session) : option string :=
  match sdkSessionId s with
  | Some t => if bool_decide (t = "") then None else Some t
  | None => None
  end.

(** One iteration of [for await (const message of ...)] at time [now]. *)
Definition on_message (s : Session) (db : gmap string Row) (net : Net)
    (message : sdk_message) (now : Z) : Session * gmap string Row * Net :=
  let '(s1, net1) := broadcastToSubscribers s net message in
  match message with
  | SystemMsg subtype sdk_id =>
      if bool_decide (subtype = "init") then
        let s2 := with_sdkSessionId s1 (Some sdk_id) in
        (s2, update_session db (sdkSessionId s2) now (messageCount s2) (id s2),
         net1)
      else (s1, db, net1)
  | _ => (s1, db, net1)
  end.

(** ** [addUserMessage] as a cooperative state machine *)

(** What one engine invocation will yield: the messages, then either the end
    of the stream ([None]) or a thrown error with its [message]. *)
Definition Stream : Type := list sdk_message * option string.

(** Where a call of [addUserMessage] stands.
    - [AwaitingPrevious p]: suspended in [await this.queryPromise], the
      promise being that of call [p];
    - [Streaming]: its async block is inside [for await]: the engine was
      invoked with [content] and the [resume] option, and [rest] and
      [failure] are still to come;
    - [Settled]: its async block ran its [finally], its promise is settled
      and the call returns. *)
Inductive call_state :=
| AwaitingPrevious (p : nat) (content : string) (stream : Stream)
| Streaming (content : string) (resume : option string)
            (rest : list sdk_message) (failure : option string)
| Settled.

(** One [Session] object with what it shares ([db], the sockets) and all the
    calls of [addUserMessage] made on it, numbered from 0. *)
Record Coordinator := mkCoordinator {
  session : Session;
  db : gmap string Row;
  net : Net;
  calls : list call_state
}.

(** What can happen next on a coordinator. *)
Inductive event :=
| Submit (content : string) (stream : Stream)
    (* addUserMessage(content) is called; the engine will answer [stream] *)
| Wake (k : nat)
    (* call k goes on after [await this.queryPromise] *)
| Next (k : nat) (now : Z)
    (* the [for await] of call k gets its next item at time [now] *)
| Reset
| Subscribe (ws : conn)
| Unsubscribe (ws : conn)
| Break (ws : conn).
    (* from now on ws.send throws for this socket *)

(** [this.messageCount++] and the start of the async block, up to its first
    suspension inside [for await]: the session as it is then, and the state
    of call [k]. *)
Definition start (s : Session) (k : nat) (content : string) (stream : Stream)
  : Session * call_state :=
  let s1 := with_messageCount s (S (messageCount s)) in
  (with_queryPromise s1 (Some k),
   Streaming content (resume_option s1) (fst stream) (snd stream)).

(** A call of [addUserMessage(content)] up to its first suspension: on
    [await this.queryPromise] when the field is set, inside [for await]
    otherwise. The call gets the next number, [length (calls w)]. *)
Definition addUserMessage (w : Coordinator) (content : string)
    (stream : Stream) : Coordinator :=
  match queryPromise (session w) with
  | Some p =>
      mkCoordinator (session w) (db w) (net w)
        (calls w ++ [AwaitingPrevious p content stream])
  | None =>
      let '(s', c) := start (session w) (length (calls w)) content stream in
      mkCoordinator s' (db w) (net w) (calls w ++ [c])
  end.

Arguments addUserMessage w content stream /.

(** One event; [None] when the event cannot happen in this state. *)
Definition step (w : Coordinator) (e : event) : option Coordinator :=
  match e with
  | Submit content stream => Some (addUserMessage w content stream)
  | Wake k =>
      match calls w !! k with
      | Some (AwaitingPrevious p content stream) =>
          match calls w !! p with
          | Some Settled =>
              let '(s', c) := start (session w) k content stream in
              Some (mkCoordinator s' (db w) (net w) (<[k := c]> (calls w)))
          | _ => None
          end
      | _ => None
      end
  | Next k now =>
      match calls w !! k with
      | Some (Streaming content resume (message :: rest) failure) =>
          let '(s', db', net') :=
            on_message (session w) (db w) (net w) message now in
          Some (mkCoordinator s' db' net'
                  (<[k := Streaming content resume rest failure]> (calls w)))
      | Some (Streaming _ _ [] None) =>
          (* finally *)
          Some (mkCoordinator (with_queryPromise (session w) None) (db w)
                  (net w) (<[k := Settled]> (calls w)))
      | Some (Streaming _ _ [] (Some error)) =>
          (* catch, then finally *)
          let '(s', net') := broadcastError (session w) (net w) error in
          Some (mkCoordinator (with_queryPromise s' None) (db w) net'
                  (<[k := Settled]> (calls w)))
      | _ => None
      end
  | Reset =>
      Some (mkCoordinator (reset (session w)) (db w) (net w) (calls w))
  | Subscribe ws =>
      let '(s', net') := subscribe (session w) (net w) ws in
      Some (mkCoordinator s' (db w) net' (calls w))
  | Unsubscribe ws =>
      Some (mkCoordinator (fst (unsubscribe (session w) ws)) (db w) (net w)
              (calls w))
  | Break ws =>
      Some (mkCoordinator (session w) (db w)
              (mkNet (ws :: failing (net w)) (attempts (net w))) (calls w))
  end.

Fixpoint run (w : Coordinator) (tr : list event) : option Coordinator :=
  match tr with
  | [] => Some w
  | e :: tr' =>
      match step w e with
      | Some w' => run w' tr'
      | None => None
      end
  end.

(** A coordinator right after [new Session(id, db, aiClient)]. *)
Definition fresh (id : string) (db : gmap string Row) (net : Net) (now : Z)
  : Coordinator :=
  let '(s, db') := new_Session id db now in mkCoordinator s db' net [].

Definition is_streaming (c : call_state) : bool :=
  match c with Streaming _ _ _ _ => true | _ => false end.
Definition is_waiting (c : call_state) : bool :=
  match c with AwaitingPrevious _ _ _ => true | _ => false end.

(** The calls whose engine invocation is in flight. *)
Definition in_flight (w : Coordinator) : list nat :=
  filter (λ k, from_option is_streaming false (calls w !! k) = true)
         (seq 0 (length (calls w))).

(** The discipline under which the single [await] of [addUserMessage]
    serialises the turns: a new call is made only while no earlier call is
    still suspended in [await this.queryPromise], and [reset] only while no
    invocation is in flight. *)
Definition admissible (w : Coordinator) (e : event) : bool :=
  match e with
  | Submit _ _ => negb (existsb is_waiting (calls w))
  | Reset => negb (existsb is_streaming (calls w))
  | _ => true
  end.

Fixpoint disciplined (w : Coordinator) (tr : list event) : bool :=
  match tr with
  | [] => true
  | e :: tr' =>
      admissible w e &&
      match step w e with
      | Some w' => disciplined w' tr'
      | None => true
      end
  end.

(** The messages of a turn delivered one after the other to call [k]. *)
Definition nexts (k : nat) (times : list Z) : list event := Next k <$> times.

(** Example streams and traces. *)
Definition init_msg (tok : string) : sdk_message := SystemMsg "init" tok.
Definition ok_stream (tok text : string) : Stream :=
  ([init_msg tok; AssistantMsg (ArrContent [TextBlock text]);
    ResultMsg "success" (VStr text) (VNum 1) (VNum 20)], None).
Definition net0 : Net := mkNet [] [].
Definition w0 : Coordinator := fresh "s1" ∅ net0 0.

(** Three calls, the last two made while the turn of the first runs: when
    it settles, both later calls wake from the same promise. *)
Definition three_callers : list event :=
  [Submit "a" (ok_stream "abc" "hi"); Submit "b" (ok_stream "abc" "yo");
   Submit "c" (ok_stream "abc" "ho")] ++ nexts 0 [1; 2; 3; 4]%Z ++
  [Wake 1; Wake 2].

(** ** The server: registry, heap of sessions and timers *)

(** A pending [setTimeout] callback of [close]: when it may fire, and the
    [session] object and the [sessionId] its closure captured. *)
Record Timer := mkTimer {
  due : Z;
  timer_session : nat;
  timer_sessionId : string
}.

(** [heap]: the [Session] objects constructed so far, a reference being an
    index; [sessions]: the [Map] from session id to object. *)
Record Server := mkServer {
  heap : list Session;
  sessions : gmap string nat;
  sdb : gmap string Row;
  snet : Net;
  timers : list Timer
}.

(** [websocket.open(ws)] with [ws.data.sessionId = sessionId]. *)
Definition open (w : Server) (ws : conn) (sessionId : string) (now : Z)
  : Server :=
  match sessions w !! sessionId with
  | Some r =>
      match heap w !! r with
      | Some s =>
          let '(s', net') := subscribe s (snet w) ws in
          mkServer (<[r := s']> (heap w)) (sessions w) (sdb w) net' (timers w)
      | None => w
      end
  | None =>
      let '(s, db') := new_Session sessionId (sdb w) now in
      let '(s', net') := subscribe s (snet w) ws in
      mkServer (heap w ++ [s']) (<[sessionId := length (heap w)]> (sessions w))
               db' net' (timers w)
  end.

(** [websocket.close(ws)]. *)
Definition close (w : Server) (ws : conn) (sessionId : string) (now : Z)
  : Server :=
  match sessions w !! sessionId with
  | Some r =>
      match heap w !! r with
      | Some s =>
          let s' := fst (unsubscribe s ws) in
          mkServer (<[r := s']> (heap w)) (sessions w) (sdb w) (snet w)
            (if hasSubscribers s' then timers w
             else timers w ++ [mkTimer (now + 60000) r sessionId])
      | None => w
      end
  | None => w
  end.

(** The [n]-th pending callback runs at time [now]; it is one-shot. *)
Definition fire (w : Server) (n : nat) (now : Z) : option Server :=
  match timers w !! n with
  | Some t =>
      if bool_decide (due t ≤ now)%Z then
        match heap w !! timer_session t with
        | Some s =>
            if negb (hasSubscribers s) then
              Some (mkServer (<[timer_session t := cleanup s]> (heap w))
                      (delete (timer_sessionId t) (sessions w))
                      (sdb w) (snet w) (delete n (timers w)))
            else
              Some (mkServer (heap w) (sessions w) (sdb w) (snet w)
                      (delete n (timers w)))
        | None => None
        end
      else None
  | None => None
  end.

Inductive server_event :=
| Open (ws : conn) (sessionId : string) (now : Z)
| Close (ws : conn) (sessionId : string) (now : Z)
| Fire (n : nat) (now : Z).

Definition server_step (w : Server) (e : server_event) : option Server :=
  match e with
  | Open ws sid now => Some (open w ws sid now)
  | Close ws sid now => Some (close w ws sid now)
  | Fire n now => fire w n now
  end.

Fixpoint server_run (w : Server) (tr : list server_event) : option Server :=
  match tr with
  | [] => Some w
  | e :: tr' =>
      match server_step w e with
      | Some w' => server_run w' tr'
      | None => None
      end
  end.

Definition server0 : Server := mkServer [] ∅ ∅ net0 [].

(** The coordinator registered under a session id, if any. *)
Definition resolve (w : Server) (sessionId : string) : option Session :=
  r ← sessions w !! sessionId; heap w !! r.

(** ** Vocabulary of the statements *)

(** Publishing payloads one after the other: one [broadcast] each. *)
Fixpoint publish (s : Session) (net : Net) (ms : list ws_message)
  : Session * Net :=
  match ms with
  | [] => (s, net)
  | m :: rest => let '(s', net') := broadcast s net m in publish s' net' rest
  end.



(** Two states of a session that differ in the subscriber set at most. *)
Definition same_core (s s' : Session) : Prop :=
  id s' = id s ∧ queryPromise s' = queryPromise s
  ∧ messageCount s' = messageCount s ∧ sdkSessionId s' = sdkSessionId s.

(** The subscribers of [s] whose socket accepts a [send] are still
    subscribers of [s']. *)
Definition keeps_healthy (net : Net) (s s' : Session) : Prop :=
  ∀ ws, ws ∈ subscribers s → ws ∉ failing net → ws ∈ subscribers s'.

(** The turn-start signal. *)
Definition is_init (m : sdk_message) : bool :=
  match m with
  | SystemMsg subtype _ => bool_decide (subtype = "init")
  | _ => false
  end.

(** One complete turn on the fresh coordinator [w0]. *)
Definition one_turn : list event :=
  Submit "hello" (ok_stream "abc" "hi") :: nexts 0 [1; 2; 3; 4]%Z.

(** The loop [for await] run over [msgs], the i-th message being handled at
    the i-th time of [times]. *)
Fixpoint drain (s : Session) (db : gmap string Row) (net : Net)
    (msgs : list sdk_message) (times : list Z)
  : Session * gmap string Row * Net :=
  match msgs, times with
  | m :: msgs', t :: times' =>
      let '(s', db', net') := on_message s db net m t in
      drain s' db' net' msgs' times'
  | _, _ => (s, db, net)
  end.

(** The state of call [k] satisfies [P]. *)
Definition call_is (P : call_state → Prop) (cs : list call_state) (k : nat)
  : Prop :=
  ∃ c, cs !! k = Some c ∧ P c.

Definition running : list call_state → nat → Prop :=
  call_is (λ c, is_streaming c = true).
Definition waits (p : nat) : list call_state → nat → Prop :=
  call_is (λ c, ∃ content stream, c = AwaitingPrevious p content stream).
Definition settled : list call_state → nat → Prop :=
  call_is (λ c, c = Settled).

(** The invariant behind serialised turns: [queryPromise] is the promise of
    the one running invocation, if any; a suspended call awaits either that
    invocation or one that settled and left the coordinator idle; and at
    most one call is suspended. *)
Record serial (s : Session) (cs : list call_state) : Prop := mkSerial {
  serial_owner : ∀ k, running cs k → queryPromise s = Some k;
  serial_promise : ∀ k, queryPromise s = Some k → running cs k;
  serial_waiter : ∀ k p, waits p cs k →
    running cs p ∨ (settled cs p ∧ queryPromise s = None);
  serial_single : ∀ k k' p p', waits p cs k → waits p' cs k' → k = k'
}.

(** The event hands a turn-start signal to the loop of some call. *)
Definition delivers_init (w : Coordinator) (e : event) : bool :=
  match e with
  | Next k _ =>
      match calls w !! k with
      | Some (Streaming _ _ (m :: _) _) => is_init m
      | _ => false
      end
  | _ => false
  end.

Fixpoint no_init_delivered (w : Coordinator) (tr : list event) : bool :=
  match tr with
  | [] => true
  | e :: tr' =>
      negb (delivers_init w e) &&
      match step w e with
      | Some w' => no_init_delivered w' tr'
      | None => true
      end
  end.

(** Two calls: the second is made while the first turn runs, and wakes when
    that turn has settled. *)
Definition two_callers : list event :=
  [Submit "a" (ok_stream "abc" "hi"); Submit "b" (ok_stream "abc" "yo")]
  ++ nexts 0 [1; 2; 3; 4]%Z ++ [Wake 1; Next 1 5%Z].

(** [reset] while the first turn waits for the engine's turn-start signal;
    the signal arrives, then the next message is submitted. *)
Definition reset_race : list event :=
  [Submit "a" (ok_stream "old" "hi"); Reset; Next 0 1%Z;
   Submit "b" (ok_stream "new" "yo")].

(** The coordinator "s1" with two subscribers in the middle of its first
    turn: the turn-start signal was handled at time 1, the reply and the
    result are still to come. *)
Definition mid_turn : Coordinator :=
  mkCoordinator (mkSession "s1" (Some 0) [7; 8] 1 (Some "old"))
    {["s1" := mkRow (Some "old") 0 1 1]}
    (mkNet [] [(7, session_info "s1" 0 false, true);
               (8, session_info "s1" 0 false, true)])
    [Streaming "a" None
       [AssistantMsg (ArrContent [TextBlock "hi"]);
        ResultMsg "success" (VStr "hi") (VNum 1) (VNum 20)] None].

(** The server after the only subscriber of "s1" came and left at time 0:
    the coordinator is registered, has no subscriber, and its timer is due
    at 60 s. *)
Definition idle_server : Server :=
  mkServer [mkSession "s1" None [] 0 None] {["s1" := 0]}
           {["s1" := mkRow None 0 0 0]}
           (mkNet [] [(1, session_info "s1" 0 false, true)])
           [mkTimer 60000 0 "s1"].

(** The only subscriber of "s1" leaves at time 0; another one joins at 10 s
    and leaves at 20 s; the timer of the first departure fires at 60 s. *)
Definition reattach_then_detach : list server_event :=
  [Open 1 "s1" 0%Z; Close 1 "s1" 0%Z; Open 2 "s1" 10000%Z;
   Close 2 "s1" 20000%Z; Fire 0 60000%Z].

(** After that, a third subscriber joins at 70 s, and the timer of the
    second departure fires at 80 s. *)
Definition stale_timer : list server_event :=
  reattach_then_detach ++ [Open 3 "s1" 70000%Z; Fire 0 80000%Z].

(** A turn whose engine invocation throws before it yields anything. *)
Definition failing_turn : list event :=
  [Submit "hello" ([], Some "spawn failed"); Next 0 5%Z].

(** ** Further vocabulary *)

(** The payloads that [broadcastToSubscribers] hands to [broadcast] for one
    engine message, in order: the translation table of the method. *)
Definition payloads (sid : string) (message : sdk_message)
  : list ws_message :=
  match message with
  | AssistantMsg (StrContent c) => [assistant_message c sid]
  | AssistantMsg (ArrContent blocks) => omap (block_wsMessage sid) blocks
  | AssistantMsg NoContent => []
  | ResultMsg subtype res cost dur =>
      if bool_decide (subtype = "success")
      then [result true res cost dur VUndefined sid]
      else [result false VUndefined VUndefined VUndefined (VStr subtype) sid]
  | UserMsg content => [user_message content sid]
  | SystemMsg _ _ => []
  | OtherMsg => []
  end.

(** What one socket was sent so far, in order, each payload with the
    outcome of its [send]. *)
Definition addressed_to (ws : conn) (a : conn * ws_message * bool)
  : option (ws_message * bool) :=
  if bool_decide (a.1.1 = ws) then Some (a.1.2, a.2) else None.

Definition sends_to (ws : conn) (net : Net) : list (ws_message * bool) :=
  omap (addressed_to ws) (attempts net).

(** The calls that have passed [this.messageCount++]. *)
Definition started (c : call_state) : Prop := is_waiting c = false.

(** The events of a whole turn of call [k]: the messages at [times], then
    the end of the stream at [tend]. *)
Definition turn (k : nat) (times : list Z) (tend : Z) : list event :=
  nexts k times ++ [Next k tend].

(** What every state of the server satisfies: a registered reference
    points to an object of the heap whose [id] is the key; the session of
    every object has a row; a pending timer holds an object of the heap and
    that object's id; and the subscribers of every object form a set. *)
Record server_wf (w : Server) : Prop := mkServerWf {
  wf_registry : ∀ sid r, sessions w !! sid = Some r →
    ∃ s, heap w !! r = Some s ∧ id s = sid;
  wf_rows : ∀ r s, heap w !! r = Some s → is_Some (sdb w !! id s);
  wf_timers : ∀ t, t ∈ timers w →
    ∃ s, heap w !! timer_session t = Some s ∧ id s = timer_sessionId t;
  wf_sets : ∀ r s, heap w !! r = Some s → NoDup (subscribers s)
}.

(** ** [AIClient] (ai-client.ts) *)

Module AIClient.

(** The values of query options. *)
Inductive option_value :=
| ONum (n : Z)
| OStr (s : string)
| OStrings (l : list string)
| OObject (keys : list string)
| OUndefined.

(** [{ ...a, ...b }]: the own properties of [b] win, also those whose
    value is [undefined]. A missing argument spreads as nothing. *)
Definition spread (a b : gmap string option_value)
  : gmap string option_value := b ∪ a.

(** The literal of the constructor; [workspace] is
    [path.join(process.cwd(), 'workspace')] and [prompt] the text of
    [appendSystemPrompt]. *)
Definition builtin (workspace prompt : string) : gmap string option_value :=
  {[ "maxTurns" := ONum 100;
     "cwd" := OStr workspace;
     "model" := OStr "sonnet";
     "allowedTools" := OStrings ["Task"; "Bash"; "Glob"; "Grep"; "Read";
                                 "Edit"; "Write"; "WebFetch"; "TodoWrite"];
     "appendSystemPrompt" := OStr prompt;
     "mcpServers" := OObject [];
     "hooks" := OObject [] ]}.

(** [constructor(options)]: the value of [this.defaultOptions]. *)
Definition defaultOptions (workspace prompt : string)
    (options : gmap string option_value) : gmap string option_value :=
  spread (builtin workspace prompt) options.

(** [queryStream(prompt, options)]: the [mergedOptions] handed to [query];
    the messages of [query] are yielded as they come. *)
Definition mergedOptions (defaults options : gmap string option_value)
  : gmap string option_value := spread defaults options.

(** The [options] argument that [Session.addUserMessage] passes. *)
Definition session_options (resume : option string)
  : gmap string option_value :=
  match resume with
  | Some tok => {[ "resume" := OStr tok ]}
  | None => ∅
  end.

Definition is_success (m : sdk_message) : bool :=
  match m with
  | ResultMsg subtype _ _ _ => bool_decide (subtype = "success")
  | _ => false
  end.

(** The loop of [querySingle] over the messages still to come. *)
Fixpoint querySingle_loop (msgs messages : list sdk_message)
    (totalCost duration : value) : list sdk_message * value * value :=
  match msgs with
  | [] => (messages, totalCost, duration)
  | message :: rest =>
      match message with
      | ResultMsg subtype _ cost dur =>
          if bool_decide (subtype = "success")
          then querySingle_loop rest (messages ++ [message]) cost dur
          else querySingle_loop rest (messages ++ [message]) totalCost duration
      | _ => querySingle_loop rest (messages ++ [message]) totalCost duration
      end
  end.

(** [querySingle]: [{ messages, cost, duration }], or the error thrown by
    the stream. *)
Definition querySingle (stream : Stream)
  : list sdk_message * value * value + string :=
  match snd stream with
  | Some error => inr error
  | None => inl (querySingle_loop (fst stream) [] (VNum 0) (VNum 0))
  end.

End AIClient.

(** ** [SessionManager] (session-patterns.md) *)

Module SessionManager.

Record SessionData := mkSessionData {
  id : string;
  sessionId : option string;
  createdAt : Z;
  lastActiveAt : Z;
  messageCount : nat
}.

(** The [sessions] map and the table behind [this.db]. *)
Record t := mk {
  sessions : gmap string SessionData;
  db : gmap string Row
}.

(** [new SessionManager(dbPath)]: an empty map over whatever the database
    file holds. *)
Definition new (rows : gmap string Row) : t := mk ∅ rows.

(** [INSERT INTO sessions VALUES (...)]: a key that exists violates the
    primary key and [db.run] throws ([None]). *)
Definition insert_row (rows : gmap string Row) (key : string) (r : Row)
  : option (gmap string Row) :=
  match rows !! key with
  | Some _ => None
  | None => Some (<[key := r]> rows)
  end.

(** [createSession(id)]; the four times are the two [new Date()] and the
    two [Date.now()]. The result is [None] when the [INSERT] threw; the
    map was written before. *)
Definition createSession (m : t) (id : string)
    (created active row_created row_active : Z) : t * option SessionData :=
  let session := mkSessionData id None created active 0 in
  let sessions' := <[id := session]> (sessions m) in
  match insert_row (db m) id (mkRow None row_created row_active 0) with
  | Some rows' => (mk sessions' rows', Some session)
  | None => (mk sessions' (db m), None)
  end.

Definition getSession (m : t) (id : string) : option SessionData :=
  sessions m !! id.

(** [updateSession(id, sdkSessionId)]; [active] is [new Date()] and
    [row_active] is [Date.now()]. *)
Definition updateSession (m : t) (id : string) (sdkSessionId : string)
    (active row_active : Z) : t :=
  match sessions m !! id with
  | Some session =>
      let session' :=
        mkSessionData (SessionManager.id session) (Some sdkSessionId)
                      (createdAt session) active (S (messageCount session)) in
      mk (<[id := session']> (sessions m))
         (update_session (db m) (Some sdkSessionId) row_active
                         (messageCount session') id)
  | None => m
  end.

Definition deleteSession (m : t) (id : string) : t :=
  mk (delete id (sessions m)) (delete id (db m)).

(** [cleanup(maxAge)] at time [now]: the loop over the entries of the
    map. *)
Definition cleanup (m : t) (now maxAge : Z) : t :=
  let cutoff := (now - maxAge)%Z in
  map_fold (λ id session acc,
              if bool_decide (lastActiveAt session < cutoff)%Z
              then deleteSession acc id else acc)
           m (sessions m).

(** The calls a user makes. *)
Inductive op :=
| Create (id : string) (created active row_created row_active : Z)
| Update (id : string) (sdkSessionId : string) (active row_active : Z)
| Delete (id : string)
| Cleanup (now maxAge : Z).

(** One call; [None] when it threw. *)
Definition apply (m : t) (o : op) : option t :=
  match o with
  | Create id c a rc ra =>
      match createSession m id c a rc ra with
      | (m', Some _) => Some m'
      | (_, None) => None
      end
  | Update id tok a ra => Some (updateSession m id tok a ra)
  | Delete id => Some (deleteSession m id)
  | Cleanup now maxAge => Some (cleanup m now maxAge)
  end.

Fixpoint run (m : t) (ops : list op) : option t :=
  match ops with
  | [] => Some m
  | o :: rest =>
      match apply m o with
      | Some m' => run m' rest
      | None => None
      end
  end.

(** The map and the table agree: every session of the map is filed under
    its own id and has a row with its token and its count. *)
Definition in_sync (m : t) : Prop :=
  ∀ id s, sessions m !! id = Some s →
    SessionManager.id s = id
    ∧ ∃ r, db m !! id = Some r
        ∧ session_id r = sessionId s
        ∧ message_count r = messageCount s.

End SessionManager.

(** ** [MessageQueue] (session-patterns.md) *)

Module MessageQueue.
Section Queue.

(** The items, and which of them JavaScript takes for true. *)
Context {T : Type} (truthy : T → bool).

Record t := mk {
  queue : list T;
  processing : bool;
  closed : bool
}.

Definition new : t := mk [] false false.

(** [add(item)]: the queue, or the message of the error thrown. *)
Definition add (q : t) (item : T) : t + string :=
  if closed q then inr "Queue is closed"
  else inl (mk (queue q ++ [item]) (processing q) (closed q)).

Definition close (q : t) : t := mk (queue q) (processing q) true.

Definition isClosed (q : t) : bool := closed q.

(** What one round of the loop of [process] comes to: an item is yielded,
    a falsy item is dropped, the loop sleeps because the queue is empty, or
    the loop is left. *)
Inductive round := Yield (item : T) | Skip | Wait | Done.

(** The first line of [process]. *)
Definition process_start (q : t) : t := mk (queue q) true (closed q).

(** One test of the loop condition and, when it holds, one body. *)
Definition process_round (q : t) : t * round :=
  if negb (closed q) || bool_decide (0 < length (queue q)) then
    match queue q with
    | [] => (q, Wait)
    | item :: rest =>
        (mk rest (processing q) (closed q),
         if truthy item then Yield item else Skip)
    end
  else (mk (queue q) false (closed q), Done).

(** A queue with its consumer: what [process] has yielded so far, what
    [add] has accepted so far, and whether [process] has returned. *)
Record run := mkRun {
  q : t;
  yielded : list T;
  accepted : list T;
  finished : bool
}.

Inductive event := Add (item : T) | Close | Round.

Definition start : run := mkRun (process_start new) [] [] false.

Definition step (r : run) (e : event) : run :=
  match e with
  | Add item =>
      match add (q r) item with
      | inl q' => mkRun q' (yielded r) (accepted r ++ [item]) (finished r)
      | inr _ => r
      end
  | Close => mkRun (close (q r)) (yielded r) (accepted r) (finished r)
  | Round =>
      if finished r then r
      else
        match process_round (q r) with
        | (q', Yield item) =>
            mkRun q' (yielded r ++ [item]) (accepted r) false
        | (q', Done) => mkRun q' (yielded r) (accepted r) true
        | (q', _) => mkRun q' (yielded r) (accepted r) false
        end
  end.

Definition steps (r : run) (es : list event) : run := foldl step r es.

(** What the consumer got and what still waits is what was accepted,
    falsy items apart. *)
Definition conserved (r : run) : Prop :=
  yielded r ++ filter (λ x, truthy x = true) (queue (q r))
  = filter (λ x, truthy x = true) (accepted r).

End Queue.
End MessageQueue.

(** ** [queryWithRetry] (session-patterns.md) *)

Module Retry.

(** One attempt: [inl (success, messages)] when the loop over the stream
    returned, [inr error] when the stream threw. *)
Fixpoint attempt_loop (msgs : list sdk_message) (failure : option string)
    (messages : list sdk_message) : bool * list sdk_message + string :=
  match msgs with
  | [] =>
      match failure with
      | Some error => inr error
      | None => inl (false, messages)
      end
  | message :: rest =>
      match message with
      | ResultMsg subtype _ _ _ =>
          if bool_decide (subtype = "success")
          then inl (true, messages ++ [message])
          else attempt_loop rest failure (messages ++ [message])
      | _ => attempt_loop rest failure (messages ++ [message])
      end
  end.

Definition attempt (stream : Stream) : bool * list sdk_message + string :=
  attempt_loop (fst stream) (snd stream) [].

(** How a call ends: it returns [{ success, messages }] or throws
    [lastError], which is [null] ([None]) when no attempt was made. With it
    the sleeps made, in milliseconds and in order. *)
Inductive ending :=
| Returned (success : bool) (messages : list sdk_message)
| Thrown (lastError : option string).

(** The [for] loop from [attempt] on, with [left] attempts to go
    ([maxRetries - attempt + 1]); [engine n] is what [query] yields in
    attempt [n]. *)
Fixpoint retry_loop (engine : nat → Stream) (left attempt : nat)
    (lastError : option string) (sleeps : list Z) : ending * list Z :=
  match left with
  | 0 => (Thrown lastError, sleeps)
  | S left' =>
      match Retry.attempt (engine attempt) with
      | inl (success, messages) => (Returned success messages, sleeps)
      | inr error =>
          retry_loop engine left' (S attempt) (Some error)
            (match left' with
             | 0 => sleeps
             | S _ => sleeps ++ [1000 * Z.of_nat attempt]%Z
             end)
      end
  end.

Definition queryWithRetry (engine : nat → Stream) (maxRetries : Z)
  : ending * list Z :=
  retry_loop engine (Z.to_nat maxRetries) 1 None [].

End Retry.

(** * Properties *)

(** ** The broadcast channel *)

Lemma ws_send_failing net ws m : failing (fst (ws_send net ws m)) = failing net.
Proof. reflexivity. Qed.

Lemma accepts_true net ws : accepts net ws = true ↔ ws ∉ failing net.
Proof.
  unfold accepts. rewrite negb_true_iff, bool_decide_eq_false. reflexivity.
Qed.

Lemma accepts_false net ws : accepts net ws = false ↔ ws ∈ failing net.
Proof.
  unfold accepts. rewrite negb_false_iff, bool_decide_eq_true. reflexivity.
Qed.

Lemma filter_iff_in {A} (P Q : A → Prop) `{!∀ x, Decision (P x)}
    `{!∀ x, Decision (Q x)} (l : list A) :
  (∀ x, x ∈ l → P x ↔ Q x) → filter P l = filter Q l.
Proof.
  induction l as [|a l IH]; intros Hall; [done|].
  rewrite !filter_cons.
  rewrite IH by (intros x Hx; apply Hall; by right).
  apply decide_ext, Hall. by left.
Qed.

Lemma filter_all {A} (P : A → Prop) `{!∀ x, Decision (P x)} (l : list A) :
  (∀ x, x ∈ l → P x) → filter P l = l.
Proof.
  induction l as [|a l IH]; intros Hall; [done|].
  rewrite filter_cons_True by (apply Hall; by left).
  f_equal. apply IH. intros x Hx. apply Hall. by right.
Qed.

(** The loop visits every element of [todo] once; it deletes from [subs]
    the visited sockets that threw. *)
Lemma broadcast_loop_eq todo : ∀ subs net m,
  broadcast_loop todo subs net m =
  (filter (λ x, ¬ (x ∈ todo ∧ x ∈ failing net)) subs,
   mkNet (failing net)
         (attempts net ++ ((λ ws, (ws, m, accepts net ws)) <$> todo))).
Proof.
  induction todo as [|ws rest IH]; intros subs net m; simpl.
  - rewrite app_nil_r. destruct net as [f a]; simpl. f_equal.
    symmetry. apply filter_all. intros x _ [Hx _].
    by apply not_elem_of_nil in Hx.
  - rewrite IH. simpl. f_equal.
    + destruct (accepts net ws) eqn:Hok.
      * apply accepts_true in Hok. apply list_filter_iff. intros x.
        rewrite elem_of_cons.
        split; intros Hn [Hin Hf]; apply Hn; (split; [|done]).
        -- destruct Hin as [-> | Hin]; done.
        -- by right.
      * apply accepts_false in Hok. unfold set_delete.
        rewrite list_filter_filter. apply list_filter_iff. intros x.
        rewrite elem_of_cons. split.
        -- intros [Hn Hne] [[-> | Hin] Hf]; [done | by apply Hn].
        -- intros Hn. split.
           ++ intros [Hin Hf]. apply Hn. split; [by right | done].
           ++ intros ->. apply Hn. split; [by left | done].
    + f_equal. rewrite <- app_assoc. reflexivity.
Qed.

Lemma broadcast_eq s net m :
  broadcast s net m =
  (with_subscribers s (filter (λ ws, ws ∉ failing net) (subscribers s)),
   mkNet (failing net)
         (attempts net ++ ((λ ws, (ws, m, accepts net ws)) <$> subscribers s))).
Proof.
  unfold broadcast. rewrite broadcast_loop_eq. f_equal. f_equal.
  apply filter_iff_in. intros x Hx. split.
  - intros H Hf. apply H. done.
  - intros H [_ Hf]. done.
Qed.

(** C7. During [broadcast] every subscriber gets exactly one [send], in the
    order of the set and without retry; a subscriber whose [send] throws is
    deleted from the set by that very attempt, every other subscriber stays
    and is sent the message, and nothing else of the coordinator changes:
    not its other fields, and not the sockets that fail. *)
Theorem broadcast_drops_failed_subscribers (s : Session) (net : Net)
    (m : ws_message) :
  let s' := fst (broadcast s net m) in
  let net' := snd (broadcast s net m) in
  attempts net' =
    attempts net ++ ((λ ws, (ws, m, accepts net ws)) <$> subscribers s)
  ∧ subscribers s' = filter (λ ws, ws ∉ failing net) (subscribers s)
  ∧ (∀ ws, ws ∈ subscribers s → ws ∈ failing net → ws ∉ subscribers s')
  ∧ (∀ ws, ws ∈ subscribers s → ws ∉ failing net →
       ws ∈ subscribers s' ∧ (ws, m, true) ∈ attempts net')
  ∧ id s' = id s ∧ queryPromise s' = queryPromise s
  ∧ messageCount s' = messageCount s ∧ sdkSessionId s' = sdkSessionId s
  ∧ failing net' = failing net.
Proof.
  intros s' net'. subst s' net'. rewrite broadcast_eq. simpl.
  repeat split.
  - intros ws _ Hf Hin. apply list_elem_of_filter in Hin as [Hn _]. done.
  - apply list_elem_of_filter. done.
  - apply elem_of_app. right. apply list_elem_of_fmap. exists ws.
    split; [| done]. f_equal. symmetry. by apply accepts_true.
Qed.

(** An instance: a set of three sockets of which the second throws. *)
Lemma broadcast_drops_failed_subscribers_witness :
  let s := mkSession "s1" None [1; 2; 3] 0 None in
  let net := mkNet [2] [] in
  let m := error_message "boom" "s1" in
  subscribers (fst (broadcast s net m)) = [1; 3]
  ∧ attempts (snd (broadcast s net m)) = [(1, m, true); (2, m, false); (3, m, true)].
Proof.
  intros s net m.
  destruct (broadcast_drops_failed_subscribers s net m) as (Ha & Hs & _).
  split; [exact Hs | exact Ha].
Defined.

(** ** Subscribing and unsubscribing *)

Lemma set_delete_spec ws l x : x ∈ set_delete ws l ↔ x ≠ ws ∧ x ∈ l.
Proof. unfold set_delete. by rewrite list_elem_of_filter. Qed.

(** C9, as the code has it. [unsubscribe] deletes the connection from the
    subscriber set, keeps every other subscriber and every other field, and
    returns [undefined]; whether the set is now empty is what a later call
    of [hasSubscribers] tells. *)
Theorem unsubscribe_removes_and_returns_undefined (s : Session) (ws : conn) :
  let s' := fst (unsubscribe s ws) in
  snd (unsubscribe s ws) = VUndefined
  ∧ (ws ∉ subscribers s')
  ∧ (∀ x, x ≠ ws → (x ∈ subscribers s' ↔ x ∈ subscribers s))
  ∧ (hasSubscribers s' = false ↔ subscribers s' = [])
  ∧ id s' = id s ∧ queryPromise s' = queryPromise s
  ∧ messageCount s' = messageCount s ∧ sdkSessionId s' = sdkSessionId s.
Proof.
  simpl. repeat split; try done.
  - rewrite set_delete_spec. intros [Hne _]. done.
  - rewrite set_delete_spec. intros [_ Hin]. done.
  - rewrite set_delete_spec. done.
  - unfold hasSubscribers. rewrite bool_decide_eq_false. simpl.
    destruct (set_delete ws (subscribers s)); simpl; [done | lia].
  - intros ->. reflexivity.
Qed.

(** The claim as stated fails: the last subscriber leaves, the set is
    empty, and the value returned is no boolean at all. *)
Lemma unsubscribe_returns_no_boolean :
  let s := mkSession "s1" None [7] 0 None in
  subscribers (fst (unsubscribe s 7)) = []
  ∧ ¬ ∃ b : bool, snd (unsubscribe s 7) = VBool b.
Proof.
  split; [reflexivity |]. intros [b Hb]. discriminate Hb.
Qed.

(** ** Translation of the engine's messages *)

Lemma same_core_refl s : same_core s s.
Proof. by repeat split. Qed.

Lemma same_core_trans s1 s2 s3 :
  same_core s1 s2 → same_core s2 s3 → same_core s1 s3.
Proof.
  intros (? & ? & ? & ?) (? & ? & ? & ?). repeat split; congruence.
Qed.

Lemma keeps_healthy_refl net s : keeps_healthy net s s.
Proof. by intros ws. Qed.

Lemma keeps_healthy_trans net s1 s2 s3 :
  keeps_healthy net s1 s2 → keeps_healthy net s2 s3 → keeps_healthy net s1 s3.
Proof. intros H12 H23 ws Hin Hf. apply H23; [by apply H12 | done]. Qed.

Lemma broadcast_frame s net m :
  same_core s (fst (broadcast s net m))
  ∧ keeps_healthy net s (fst (broadcast s net m))
  ∧ failing (snd (broadcast s net m)) = failing net.
Proof.
  rewrite broadcast_eq. simpl. split; [by repeat split |]. split; [| done].
  intros ws Hin Hf. simpl. by apply list_elem_of_filter.
Qed.

Lemma broadcast_blocks_frame blocks : ∀ s net,
  same_core s (fst (broadcast_blocks s net blocks))
  ∧ keeps_healthy net s (fst (broadcast_blocks s net blocks))
  ∧ failing (snd (broadcast_blocks s net blocks)) = failing net.
Proof.
  induction blocks as [|b rest IH]; intros s net; simpl.
  - split; [apply same_core_refl |]. split; [apply keeps_healthy_refl | done].
  - destruct (block_wsMessage (id s) b) as [m|]; [| apply IH].
    destruct (broadcast_frame s net m) as (Hc & Hk & Hf).
    destruct (broadcast s net m) as [s1 net1]; simpl in *.
    destruct (IH s1 net1) as (Hc' & Hk' & Hf').
    split; [by eapply same_core_trans |]. split; [| congruence].
    intros ws Hin Hfl. apply Hk'; [by apply Hk | by rewrite Hf].
Qed.

Lemma broadcastToSubscribers_frame s net message :
  same_core s (fst (broadcastToSubscribers s net message))
  ∧ keeps_healthy net s (fst (broadcastToSubscribers s net message))
  ∧ failing (snd (broadcastToSubscribers s net message)) = failing net.
Proof.
  destruct message as [st sid | [c | blocks |] | c | st r c d |]; simpl;
    try apply broadcast_frame; try apply broadcast_blocks_frame;
    try (split; [apply same_core_refl |];
         split; [apply keeps_healthy_refl | done]).
  case_bool_decide; apply broadcast_frame.
Qed.





(** ** Running a turn *)

Lemma run_app tr1 : ∀ w tr2,
  run w (tr1 ++ tr2) = run w tr1 ≫= λ w', run w' tr2.
Proof.
  induction tr1 as [|e tr1 IH]; intros w tr2; simpl; [done |].
  destruct (step w e); [apply IH | done].
Qed.

Lemma run_nexts msgs : ∀ times w k c r rest f,
  calls w !! k = Some (Streaming c r (msgs ++ rest) f) →
  length times = length msgs →
  run w (nexts k times) =
  Some (let '(s', db', net') := drain (session w) (db w) (net w) msgs times in
        mkCoordinator s' db' net' (<[k := Streaming c r rest f]> (calls w))).
Proof.
  induction msgs as [|m msgs IH]; intros [|t times] w k c r rest f Hk Hlen;
    try discriminate; simpl in *.
  - rewrite list_insert_id by done. by destruct w.
  - rewrite Hk.
    destruct (on_message (session w) (db w) (net w) m t) as [[s1 db1] net1].
    assert (k < length (calls w)) as Hlt by (eapply lookup_lt_Some; eauto).
    erewrite IH; simpl.
    + rewrite list_insert_insert_eq. reflexivity.
    + by rewrite list_lookup_insert_eq.
    + by injection Hlen.
Qed.

(** A whole turn from an idle coordinator: the call starts at once, the
    loop drains the stream, an error is caught and broadcast, and [finally]
    clears [queryPromise]. *)
Lemma run_turn w content msgs fin times tend :
  queryPromise (session w) = None →
  length times = length msgs →
  run w (Submit content (msgs, fin) :: nexts (length (calls w)) times
           ++ [Next (length (calls w)) tend]) =
  Some (let s1 := with_queryPromise
                    (with_messageCount (session w)
                                       (S (messageCount (session w))))
                    (Some (length (calls w))) in
        let '(s2, db2, net2) := drain s1 (db w) (net w) msgs times in
        let '(s3, net3) := match fin with
                           | None => (s2, net2)
                           | Some error => broadcastError s2 net2 error
                           end in
        mkCoordinator (with_queryPromise s3 None) db2 net3
                      (calls w ++ [Settled])).
Proof.
  intros Hidle Hlen. simpl. rewrite Hidle. simpl.
  rewrite run_app.
  erewrite (run_nexts msgs times _ _ content _ [] fin); simpl.
  - destruct (drain _ (db w) (net w) msgs times) as [[s2 db2] net2]. simpl.
    rewrite list_lookup_insert_eq
      by (rewrite length_app; simpl; lia).
    rewrite list_insert_insert_eq.
    assert (<[length (calls w) := Settled]>
              (calls w ++ [Streaming content
                 (resume_option (with_messageCount (session w)
                                   (S (messageCount (session w)))))
                 msgs fin]) = calls w ++ [Settled]) as ->.
    { rewrite insert_app_r_alt by lia. by rewrite Nat.sub_diag. }
    destruct fin as [error|]; [| done].
    by destruct (broadcastError s2 net2 error).
  - rewrite app_nil_r. by rewrite lookup_app_r, Nat.sub_diag by lia.
  - done.
Qed.

Lemma on_message_frame s db net m now :
  let res := on_message s db net m now in
  id (fst (fst res)) = id s
  ∧ queryPromise (fst (fst res)) = queryPromise s
  ∧ messageCount (fst (fst res)) = messageCount s
  ∧ keeps_healthy net s (fst (fst res))
  ∧ failing (snd res) = failing net.
Proof.
  unfold on_message.
  destruct (broadcastToSubscribers_frame s net m)
    as ((Hid & Hq & Hc & _) & Hk & Hf).
  destruct (broadcastToSubscribers s net m) as [s1 net1]; simpl in *.
  destruct m as [st sid | | | |]; simpl; try done.
  case_bool_decide; simpl; done.
Qed.

Lemma on_message_other s db net m now :
  is_init m = false →
  sdkSessionId (fst (fst (on_message s db net m now))) = sdkSessionId s
  ∧ snd (fst (on_message s db net m now)) = db.
Proof.
  intros Hm. unfold on_message.
  destruct (broadcastToSubscribers_frame s net m)
    as ((_ & _ & _ & Ht) & _ & _).
  destruct (broadcastToSubscribers s net m) as [s1 net1]; simpl in *.
  destruct m as [st sid | | | |]; simpl in *; try done.
  by rewrite Hm.
Qed.

Lemma on_message_init s db net tok now :
  on_message s db net (init_msg tok) now =
  (with_sdkSessionId s (Some tok),
   update_session db (Some tok) now (messageCount s) (id s), net).
Proof. reflexivity. Qed.

Lemma update_session_lookup db tok now count key r :
  db !! key = Some r →
  update_session db tok now count key !! key
  = Some (mkRow tok (created_at r) now count).
Proof. intros Hr. unfold update_session. rewrite Hr. apply lookup_insert_eq. Qed.

Lemma on_message_row s db net m now r :
  db !! id s = Some r →
  ∃ r', snd (fst (on_message s db net m now)) !! id s = Some r'
        ∧ created_at r' = created_at r.
Proof.
  intros Hr. destruct (is_init m) eqn:Hm.
  - destruct m as [st tok | | | |]; try discriminate. simpl in Hm.
    apply bool_decide_eq_true in Hm as ->.
    change (SystemMsg "init" tok) with (init_msg tok).
    rewrite on_message_init. simpl.
    erewrite update_session_lookup by done. eauto.
  - destruct (on_message_other s db net m now Hm) as [_ ->]. eauto.
Qed.

Lemma drain_frame msgs : ∀ times s db net,
  let res := drain s db net msgs times in
  id (fst (fst res)) = id s
  ∧ queryPromise (fst (fst res)) = queryPromise s
  ∧ messageCount (fst (fst res)) = messageCount s
  ∧ keeps_healthy net s (fst (fst res))
  ∧ failing (snd res) = failing net.
Proof.
  induction msgs as [|m msgs IH]; intros [|t times] s db net; simpl.
  1-3: by repeat split; first [done | apply keeps_healthy_refl].
  destruct (on_message_frame s db net m t) as (Hid & Hq & Hc & Hk & Hf).
  destruct (on_message s db net m t) as [[s1 db1] net1]; simpl in *.
  destruct (IH times s1 db1 net1) as (Hid' & Hq' & Hc' & Hk' & Hf').
  repeat split; try congruence.
  intros ws Hin Hfl. apply Hk'; [by apply Hk | by rewrite Hf].
Qed.

Lemma drain_no_init msgs : ∀ times s db net,
  Forall (λ m, is_init m = false) msgs →
  sdkSessionId (fst (fst (drain s db net msgs times))) = sdkSessionId s
  ∧ snd (fst (drain s db net msgs times)) = db.
Proof.
  induction msgs as [|m msgs IH]; intros [|t times] s db net Hall; simpl;
    try done.
  inversion Hall as [|? ? Hm Hrest]; subst.
  destruct (on_message_other s db net m t Hm) as [Ht Hdb].
  destruct (on_message s db net m t) as [[s1 db1] net1]; simpl in *.
  destruct (IH times s1 db1 net1 Hrest) as [Ht' Hdb']. split; congruence.
Qed.

Lemma drain_row msgs : ∀ times s db net r,
  db !! id s = Some r →
  ∃ r', snd (fst (drain s db net msgs times)) !! id s = Some r'
        ∧ created_at r' = created_at r.
Proof.
  induction msgs as [|m msgs IH]; intros [|t times] s db net r Hr; simpl;
    eauto.
  destruct (on_message_row s db net m t r Hr) as (r1 & Hr1 & Hc1).
  destruct (on_message_frame s db net m t) as (Hid & _).
  destruct (on_message s db net m t) as [[s1 db1] net1]; simpl in *.
  rewrite <- Hid in Hr1.
  destruct (IH times s1 db1 net1 r1 Hr1) as (r2 & Hr2 & Hc2).
  exists r2. rewrite <- Hid. split; congruence.
Qed.

Lemma drain_app pre : ∀ tpre s db net post tpost,
  length tpre = length pre →
  drain s db net (pre ++ post) (tpre ++ tpost) =
  let '(s1, db1, net1) := drain s db net pre tpre in
  drain s1 db1 net1 post tpost.
Proof.
  induction pre as [|m pre IH]; intros [|t tpre] s db net post tpost Hlen;
    try discriminate; simpl; [done |].
  destruct (on_message s db net m t) as [[s1 db1] net1].
  apply IH. by injection Hlen.
Qed.

(** The stream has a turn-start signal with token [tok], handled at time
    [t], and none after it: at the end of the loop the session holds [tok]
    and its row holds [tok], [t] and the message count. *)
Lemma drain_last_init pre tok post tpre t tpost s db net r :
  Forall (λ m, is_init m = false) post →
  length tpre = length pre →
  db !! id s = Some r →
  let res := drain s db net (pre ++ init_msg tok :: post)
                   (tpre ++ t :: tpost) in
  sdkSessionId (fst (fst res)) = Some tok
  ∧ snd (fst res) !! id s
    = Some (mkRow (Some tok) (created_at r) t (messageCount s)).
Proof.
  intros Hpost Hlen Hr. simpl. rewrite drain_app by done.
  destruct (drain_frame pre tpre s db net) as (Hid & _ & Hc & _).
  destruct (drain_row pre tpre s db net r Hr) as (r1 & Hr1 & Hc1).
  destruct (drain s db net pre tpre) as [[s1 db1] net1]; simpl in *.
  destruct (drain_no_init post tpost (with_sdkSessionId s1 (Some tok))
              (update_session db1 (Some tok) t (messageCount s1) (id s1))
              net1 Hpost) as [-> ->].
  split; [done |]. rewrite Hid, Hc.
  erewrite update_session_lookup by done. by rewrite Hc1.
Qed.

Lemma broadcastError_frame s net error :
  same_core s (fst (broadcastError s net error))
  ∧ keeps_healthy net s (fst (broadcastError s net error))
  ∧ failing (snd (broadcastError s net error)) = failing net.
Proof. apply broadcast_frame. Qed.

(** ** The durable row *)

(** C2, as the code has it. The row is written when a turn-start signal is
    handled, and only then. So after a turn from an idle coordinator whose
    stream had a turn-start signal, whether it then ended or threw ([fin]),
    the row holds the token of the last such signal, the time [t] at which
    it was handled and the message count, which are also the coordinator's
    own token and count; and after a turn without any turn-start signal the
    table is what it was, although the message count went up. *)
Theorem row_follows_turn_start_signal (w : Coordinator) (content : string)
    (fin : option string) (tend : Z) (r : Row) :
  queryPromise (session w) = None →
  db w !! id (session w) = Some r →
  (∀ pre tok post tpre t tpost,
     Forall (λ m, is_init m = false) post →
     length tpre = length pre → length tpost = length post →
     ∃ w', run w (Submit content (pre ++ init_msg tok :: post, fin)
                    :: nexts (length (calls w)) (tpre ++ t :: tpost)
                    ++ [Next (length (calls w)) tend]) = Some w'
       ∧ queryPromise (session w') = None
       ∧ sdkSessionId (session w') = Some tok
       ∧ messageCount (session w') = S (messageCount (session w))
       ∧ db w' !! id (session w')
         = Some (mkRow (Some tok) (created_at r) t
                       (S (messageCount (session w)))))
  ∧ (∀ msgs times,
       Forall (λ m, is_init m = false) msgs → length times = length msgs →
       ∃ w', run w (Submit content (msgs, fin)
                      :: nexts (length (calls w)) times
                      ++ [Next (length (calls w)) tend]) = Some w'
         ∧ queryPromise (session w') = None
         ∧ messageCount (session w') = S (messageCount (session w))
         ∧ db w' = db w).
Proof.
  intros Hidle Hr. split.
  - intros pre tok post tpre t tpost Hpost Hpre Hlen.
    rewrite run_turn; [| done | by rewrite !length_app; simpl; lia].
    cbv zeta. set (s1 := with_queryPromise _ _).
    destruct (drain_frame (pre ++ init_msg tok :: post) (tpre ++ t :: tpost)
                s1 (db w) (net w)) as (Hid & _ & Hc & _).
    destruct (drain_last_init pre tok post tpre t tpost s1 (db w) (net w) r
                Hpost Hpre Hr) as [Ht Hrow].
    destruct (drain s1 (db w) (net w) _ _) as [[s2 db2] net2]; simpl in *.
    assert (same_core s2
              (fst match fin with
                   | Some error => broadcastError s2 net2 error
                   | None => (s2, net2)
                   end)) as (Hid3 & _ & Hc3 & Ht3).
    { destruct fin; [apply broadcastError_frame | apply same_core_refl]. }
    destruct (match fin with
              | Some error => broadcastError s2 net2 error
              | None => (s2, net2)
              end) as [s3 net3]; simpl in *.
    eexists. split; [reflexivity |]. simpl.
    repeat split; congruence.
  - intros msgs times Hall Hlen.
    rewrite run_turn by done.
    cbv zeta. set (s1 := with_queryPromise _ _).
    destruct (drain_frame msgs times s1 (db w) (net w)) as (_ & _ & Hc & _).
    destruct (drain_no_init msgs times s1 (db w) (net w) Hall) as [_ Hdb].
    destruct (drain s1 (db w) (net w) msgs times) as [[s2 db2] net2];
      simpl in *.
    assert (same_core s2
              (fst match fin with
                   | Some error => broadcastError s2 net2 error
                   | None => (s2, net2)
                   end)) as (_ & _ & Hc3 & _).
    { destruct fin; [apply broadcastError_frame | apply same_core_refl]. }
    destruct (match fin with
              | Some error => broadcastError s2 net2 error
              | None => (s2, net2)
              end) as [s3 net3]; simpl in *.
    eexists. split; [reflexivity |]. simpl.
    repeat split; congruence.
Qed.

(** An instance on the fresh coordinator [w0]: a turn-start signal with
    token ["abc"] handled at time 1, then a reply, then a thrown error. *)
Lemma row_follows_turn_start_signal_witness :
  ∃ w', run w0 (Submit "hello"
                  ([] ++ init_msg "abc" :: [AssistantMsg (StrContent "hi")],
                   Some "lost connection")
                  :: nexts 0 ([] ++ 1 :: [2]) ++ [Next 0 3])%Z = Some w'
    ∧ queryPromise (session w') = None
    ∧ sdkSessionId (session w') = Some "abc"
    ∧ messageCount (session w') = 1
    ∧ db w' !! id (session w') = Some (mkRow (Some "abc") 0 1 1).
Proof.
  refine (proj1 (row_follows_turn_start_signal w0 "hello"
                   (Some "lost connection") 3 (mkRow None 0 0 0) _ _)
                [] "abc" [AssistantMsg (StrContent "hi")] [] 1%Z [2%Z]
                _ _ _).
  - reflexivity.
  - reflexivity.
  - repeat constructor.
  - reflexivity.
  - reflexivity.
Defined.

(** The claim as stated fails: the engine throws before any turn-start
    signal; the coordinator counts one message and its row still says
    zero. *)
Lemma failed_turn_leaves_row_stale :
  ∃ w r, run w0 failing_turn = Some w
    ∧ queryPromise (session w) = None
    ∧ messageCount (session w) = 1
    ∧ db w !! "s1" = Some r
    ∧ message_count r = 0.
Proof.
  eexists _, _. split; [reflexivity |]. vm_compute. done.
Qed.

(** ** Failure of the engine *)

(** A turn up to the point where only the end of the stream is left. *)
Lemma run_turn_open w content msgs fin times :
  queryPromise (session w) = None →
  length times = length msgs →
  run w (Submit content (msgs, fin) :: nexts (length (calls w)) times) =
  Some (let s0 := with_messageCount (session w)
                    (S (messageCount (session w))) in
        let s1 := with_queryPromise s0 (Some (length (calls w))) in
        let '(s2, db2, net2) := drain s1 (db w) (net w) msgs times in
        mkCoordinator s2 db2 net2
          (calls w ++ [Streaming content (resume_option s0) [] fin])).
Proof.
  intros Hidle Hlen. simpl. rewrite Hidle. simpl.
  erewrite (run_nexts msgs times _ _ content _ [] fin); simpl.
  - destruct (drain _ (db w) (net w) msgs times) as [[s2 db2] net2].
    rewrite insert_app_r_alt by lia. by rewrite Nat.sub_diag.
  - rewrite app_nil_r. by rewrite lookup_app_r, Nat.sub_diag by lia.
  - done.
Qed.

(** A turn from an idle coordinator whose stream ends normally runs to its
    end and leaves the coordinator idle. *)
Lemma run_turn_settles w content msgs times tend :
  queryPromise (session w) = None →
  length times = length msgs →
  ∃ w', run w (Submit content (msgs, None) :: nexts (length (calls w)) times
                 ++ [Next (length (calls w)) tend]) = Some w'
    ∧ queryPromise (session w') = None
    ∧ messageCount (session w') = S (messageCount (session w))
    ∧ calls w' = calls w ++ [Settled].
Proof.
  intros Hidle Hlen. rewrite run_turn by done. cbv zeta.
  set (s1 := with_queryPromise _ _).
  destruct (drain_frame msgs times s1 (db w) (net w)) as (_ & _ & Hc & _).
  destruct (drain s1 (db w) (net w) msgs times) as [[s2 db2] net2].
  eexists. split; [reflexivity |]. simpl in *. by rewrite Hc.
Qed.

(** The catch and finally of a failed turn, and the start of the next
    call. *)
Lemma engine_failure_caught (w : Coordinator) (content : string)
    (msgs : list sdk_message) (error : string) (times : list Z) (tend : Z) :
  queryPromise (session w) = None →
  length times = length msgs →
  ∃ w1 w',
    run w (Submit content (msgs, Some error)
             :: nexts (length (calls w)) times) = Some w1
    ∧ step w1 (Next (length (calls w)) tend) = Some w'
    ∧ session w'
      = with_queryPromise
          (fst (broadcastError (session w1) (net w1) error)) None
    ∧ net w' = snd (broadcastError (session w1) (net w1) error)
    ∧ db w' = db w1
    ∧ (∀ ws, ws ∈ subscribers (session w) → ws ∉ failing (net w) →
         (ws, error_message error (id (session w)), true)
           ∈ attempts (net w'))
    ∧ queryPromise (session w') = None
    ∧ calls w' = calls w ++ [Settled]
    ∧ (∀ content2 stream2,
         ∃ w'', step w' (Submit content2 stream2) = Some w''
           ∧ calls w''
             = calls w' ++ [Streaming content2 (resume_option (session w'))
                                      (fst stream2) (snd stream2)]
           ∧ messageCount (session w'') = S (messageCount (session w'))
           ∧ queryPromise (session w'') = Some (S (length (calls w)))).
Proof.
  intros Hidle Hlen. rewrite run_turn_open by done. cbv zeta.
  set (s0 := with_messageCount _ _). set (s1 := with_queryPromise _ _).
  destruct (drain_frame msgs times s1 (db w) (net w))
    as (Hid & _ & _ & Hk & Hf).
  destruct (drain s1 (db w) (net w) msgs times) as [[s2 db2] net2];
    simpl in *.
  eexists _, _. split; [reflexivity |]. simpl.
  rewrite lookup_app_r, Nat.sub_diag by lia. simpl.
  unfold broadcastError at 1. rewrite broadcast_eq. simpl.
  split; [reflexivity |].
  unfold broadcastError. rewrite broadcast_eq. simpl.
  repeat split.
  - intros ws Hin Hfl. apply elem_of_app. right.
    apply list_elem_of_fmap. exists ws. split.
    + rewrite Hid. f_equal. symmetry. apply accepts_true. by rewrite Hf.
    + by apply Hk.
  - rewrite insert_app_r_alt by lia. by rewrite Nat.sub_diag.
  - intros content2 stream2. eexists. split; [reflexivity |]. simpl.
    rewrite !length_insert, !length_app. simpl.
    repeat split. f_equal. lia.
Qed.


(** C5. The engine throws after [msgs]. The coordinator catches the error:
    the last step of the turn is [broadcastError] with the error's message
    on the session as it is then, so every subscriber whose socket accepts
    sends is sent the [error] payload; [finally] clears [queryPromise] and
    the call settles. Any later [addUserMessage] starts its invocation at
    once, as after a turn that ended well, and a later turn whose stream
    ends normally runs to its end. *)
Theorem engine_failure_is_not_fatal (w : Coordinator) (content : string)
    (msgs : list sdk_message) (error : string) (times : list Z) (tend : Z) :
  queryPromise (session w) = None →
  length times = length msgs →
  ∃ w1 w',
    run w (Submit content (msgs, Some error)
             :: nexts (length (calls w)) times) = Some w1
    ∧ step w1 (Next (length (calls w)) tend) = Some w'
    ∧ session w'
      = with_queryPromise
          (fst (broadcastError (session w1) (net w1) error)) None
    ∧ net w' = snd (broadcastError (session w1) (net w1) error)
    ∧ db w' = db w1
    ∧ (∀ ws, ws ∈ subscribers (session w) → ws ∉ failing (net w) →
         (ws, error_message error (id (session w)), true)
           ∈ attempts (net w'))
    ∧ queryPromise (session w') = None
    ∧ calls w' = calls w ++ [Settled]
    ∧ (∀ content2 stream2,
         ∃ w'', step w' (Submit content2 stream2) = Some w''
           ∧ calls w''
             = calls w' ++ [Streaming content2 (resume_option (session w'))
                                      (fst stream2) (snd stream2)]
           ∧ messageCount (session w'') = S (messageCount (session w'))
           ∧ queryPromise (session w'') = Some (S (length (calls w))))
    ∧ (∀ content2 msgs2 times2 tend2,
         length times2 = length msgs2 →
         ∃ w'', run w' (Submit content2 (msgs2, None)
                          :: nexts (length (calls w')) times2
                          ++ [Next (length (calls w')) tend2]) = Some w''
           ∧ queryPromise (session w'') = None
           ∧ messageCount (session w'') = S (messageCount (session w'))
           ∧ calls w'' = calls w' ++ [Settled]).
Proof.
  intros Hidle Hlen.
  destruct (engine_failure_caught w content msgs error times tend Hidle Hlen)
    as (w1 & w' & Hrun & Hstep & Hs & Hn & Hd & Hsent & Hq & Hc & Hnext).
  exists w1, w'. repeat (split; [done |]).
  intros content2 msgs2 times2 tend2 Hlen2. by apply run_turn_settles.
Qed.

(** An instance with one subscriber: the stream throws after the
    turn-start signal. *)
Lemma engine_failure_is_not_fatal_witness :
  ∃ w1 w',
    run (mkCoordinator (mkSession "s1" None [7] 0 None) ∅ net0 [])
        (Submit "hello" ([init_msg "abc"], Some "boom") :: nexts 0 [1%Z])
    = Some w1
    ∧ step w1 (Next 0 2%Z) = Some w'
    ∧ (7, error_message "boom" "s1", true) ∈ attempts (net w')
    ∧ queryPromise (session w') = None
    ∧ calls w' = [Settled]
    ∧ ∃ w'', step w' (Submit "again" (ok_stream "abc" "hi")) = Some w''
        ∧ queryPromise (session w'') = Some 1.
Proof.
  destruct (engine_failure_is_not_fatal
              (mkCoordinator (mkSession "s1" None [7] 0 None) ∅ net0 [])
              "hello" [init_msg "abc"] "boom" [1%Z] 2%Z eq_refl eq_refl)
    as (w1 & w' & Hrun & Hstep & _ & _ & _ & Hsent & Hidle & Hcalls & Hnext
        & _).
  exists w1, w'. repeat split; try done.
  - apply Hsent; [by apply list_elem_of_singleton | apply not_elem_of_nil].
  - destruct (Hnext "again" (ok_stream "abc" "hi")) as (w'' & H1 & _ & _ & H2).
    exists w''. done.
Defined.

(** ** Serialised turns *)

Lemma call_is_snoc P cs x k :
  call_is P (cs ++ [x]) k ↔ call_is P cs k ∨ (k = length cs ∧ P x).
Proof.
  unfold call_is. split.
  - intros (c & Hc & HP).
    apply lookup_snoc_Some in Hc as [[_ Hc] | [-> ->]]; [left | right]; eauto.
  - intros [(c & Hc & HP) | [-> HP]].
    + exists c. split; [by apply lookup_app_l_Some | done].
    + exists x. split; [| done]. by rewrite lookup_app_r, Nat.sub_diag by lia.
Qed.

Lemma call_is_insert P cs j x k :
  j < length cs →
  call_is P (<[j := x]> cs) k ↔ (k = j ∧ P x) ∨ (k ≠ j ∧ call_is P cs k).
Proof.
  intros Hj. unfold call_is. destruct (decide (k = j)) as [-> | Hne].
  - rewrite list_lookup_insert_eq by done. split.
    + intros (c & [= <-] & HP). by left.
    + intros [[_ HP] | [Hne _]]; [eauto | done].
  - rewrite list_lookup_insert_ne by done. split.
    + intros H. by right.
    + intros [[Heq _] | [_ H]]; done.
Qed.

Lemma call_is_lt P cs k : call_is P cs k → k < length cs.
Proof. intros (c & Hc & _). by eapply lookup_lt_Some. Qed.

Lemma call_is_excl (P Q : call_state → Prop) cs k :
  (∀ c, P c → Q c → False) → call_is P cs k → call_is Q cs k → False.
Proof.
  intros HPQ (c & Hc & HP) (c' & Hc' & HQ).
  rewrite Hc in Hc'. injection Hc' as <-. eauto.
Qed.

Lemma existsb_false_call_is (f : call_state → bool) (P : call_state → Prop)
    cs k :
  (∀ c, P c → f c = true) → existsb f cs = false → ¬ call_is P cs k.
Proof.
  intros HP Hex (c & Hc & Hc').
  assert (existsb f cs = true) as Ht; [| congruence].
  apply existsb_exists. exists c. split; [| by apply HP].
  apply list_elem_of_In, list_elem_of_lookup. eauto.
Qed.

Lemma no_waiting cs k p : existsb is_waiting cs = false → ¬ waits p cs k.
Proof.
  apply existsb_false_call_is. by intros c (content & stream & ->).
Qed.

Lemma no_running cs k : existsb is_streaming cs = false → ¬ running cs k.
Proof. by apply existsb_false_call_is. Qed.

Lemma running_not_settled cs k : running cs k → settled cs k → False.
Proof. apply call_is_excl. by intros c Hr ->. Qed.

Lemma running_not_waits cs k p : running cs k → waits p cs k → False.
Proof. apply call_is_excl. by intros c Hr (? & ? & ->). Qed.

Lemma serial_unique s cs j k :
  serial s cs → running cs j → running cs k → j = k.
Proof.
  intros Hs Hj Hk. apply (serial_owner _ _ Hs) in Hj, Hk. congruence.
Qed.

Lemma serial_ext s s' cs :
  queryPromise s' = queryPromise s → serial s cs → serial s' cs.
Proof.
  intros Hq [Ha Hb Hc Hd]. by constructor; rewrite ?Hq.
Qed.

Lemma serial_submit w content stream w' :
  serial (session w) (calls w) →
  admissible w (Submit content stream) = true →
  step w (Submit content stream) = Some w' →
  serial (session w') (calls w').
Proof.
  intros Hs Hadm Hstep. simpl in Hadm. apply negb_true_iff in Hadm.
  simpl in Hstep. destruct (queryPromise (session w)) as [p|] eqn:Hq.
  - injection Hstep as <-. simpl. constructor.
    + intros k [Hk | [_ Hk]]%call_is_snoc; [| done].
      by apply Hs.
    + intros k Hk. apply call_is_snoc. left. apply Hs. congruence.
    + intros k p' [Hk | [-> (? & ? & [= ->])]]%call_is_snoc.
      * by apply no_waiting in Hk.
      * left. apply call_is_snoc. left. by apply Hs.
    + intros k k' p1 p2 [Hk | [-> _]]%call_is_snoc
        [Hk' | [-> _]]%call_is_snoc; try done.
      * by apply no_waiting in Hk.
      * by apply no_waiting in Hk.
      * by apply no_waiting in Hk'.
  - injection Hstep as <-. simpl. constructor; simpl.
    + intros k [Hk | [-> _]]%call_is_snoc; [| done].
      apply (serial_owner _ _ Hs) in Hk. congruence.
    + intros k [= <-]. apply call_is_snoc. by right.
    + intros k p [Hk | [-> (? & ? & [=])]]%call_is_snoc.
      by apply no_waiting in Hk.
    + intros k k' p1 p2 [Hk | [-> (? & ? & [=])]]%call_is_snoc.
      by apply no_waiting in Hk.
Qed.

Lemma serial_wake w k w' :
  serial (session w) (calls w) →
  step w (Wake k) = Some w' →
  serial (session w') (calls w').
Proof.
  intros Hs Hstep. simpl in Hstep.
  destruct (calls w !! k) as [[p content stream | |] |] eqn:Hk; try done.
  destruct (calls w !! p) as [[| |] |] eqn:Hp; try done.
  injection Hstep as <-. simpl.
  assert (k < length (calls w)) as Hlt by (by eapply lookup_lt_Some).
  assert (waits p (calls w) k) as Hwk by (eexists; split; eauto).
  assert (settled (calls w) p) as Hsp by (by exists Settled).
  assert (queryPromise (session w) = None) as Hq.
  { destruct (serial_waiter _ _ Hs k p Hwk) as [Hr | [_ Hq]]; [| done].
    destruct (running_not_settled _ _ Hr Hsp). }
  assert (∀ j, ¬ running (calls w) j) as Hnone.
  { intros j Hj. apply (serial_owner _ _ Hs) in Hj. congruence. }
  constructor; simpl.
  - intros j [[-> _] | [_ Hj]]%call_is_insert; [done | | done].
    destruct (Hnone j Hj).
  - intros j [= <-]. apply call_is_insert; [done |]. by left.
  - intros j q [[-> (? & ? & [=])] | [Hne Hj]]%call_is_insert; [| done].
    destruct Hne. eapply serial_single; eauto.
  - intros j j' q q' [[-> (? & ? & [=])] | [Hne Hj]]%call_is_insert;
      [| done]. destruct Hne. eapply serial_single; eauto.
Qed.

Lemma call_is_replace (P : call_state → Prop) cs k c x j :
  cs !! k = Some c → (P c ↔ P x) →
  call_is P (<[k := x]> cs) j ↔ call_is P cs j.
Proof.
  intros Hk HP. rewrite call_is_insert by (by eapply lookup_lt_Some).
  split.
  - intros [[-> Hx] | [_ Hj]]; [| done]. exists c. split; [done | by apply HP].
  - intros Hj. destruct (decide (j = k)) as [-> | Hne]; [left | by right].
    split; [done |]. destruct Hj as (c' & Hc' & HPc').
    rewrite Hk in Hc'. injection Hc' as <-. by apply HP.
Qed.

(** The loop of a running call takes a message: the call keeps running. *)
Lemma serial_replace s s' cs k c x :
  serial s cs → cs !! k = Some c →
  is_streaming c = true → is_streaming x = true →
  queryPromise s' = queryPromise s →
  serial s' (<[k := x]> cs).
Proof.
  intros [Ha Hb Hc Hd] Hk Hsc Hsx Hq.
  assert (∀ j, running (<[k := x]> cs) j ↔ running cs j) as Hrun.
  { intros j. eapply call_is_replace; [done |]. by rewrite Hsc, Hsx. }
  assert (∀ p j, waits p (<[k := x]> cs) j ↔ waits p cs j) as Hwait.
  { intros p j. eapply call_is_replace; [done |].
    split; intros (? & ? & ->); done. }
  assert (∀ j, settled (<[k := x]> cs) j ↔ settled cs j) as Hset.
  { intros j. eapply call_is_replace; [done |]. split; intros ->; done. }
  constructor; rewrite ?Hq.
  - intros j Hj%Hrun. by apply Ha.
  - intros j Hj. apply Hrun. by apply Hb.
  - intros j p Hj%Hwait. rewrite Hrun, Hset. by apply Hc in Hj.
  - intros j j' p p' Hj%Hwait Hj'%Hwait. by eapply Hd.
Qed.

(** [finally]: the running call settles and [queryPromise] is cleared. *)
Lemma serial_settle s s' cs k :
  serial s cs → running cs k → queryPromise s' = None →
  serial s' (<[k := Settled]> cs).
Proof.
  intros Hs Hk Hq.
  assert (k < length cs) as Hlt by (by eapply call_is_lt).
  constructor; rewrite ?Hq.
  - intros j [[-> Hf] | [Hne Hj]]%call_is_insert; [done | | done].
    destruct Hne. by eapply serial_unique.
  - done.
  - intros j p [[-> (? & ? & [=])] | [Hne Hj]]%call_is_insert; [| done].
    right. split; [| done]. apply call_is_insert; [done |].
    destruct (serial_waiter _ _ Hs j p Hj) as [Hr | [Hsp _]].
    + left. split; [by eapply serial_unique | done].
    + right. split; [| done]. intros ->.
      destruct (running_not_settled _ _ Hk Hsp).
  - intros j j' p p' [[-> (? & ? & [=])] | [_ Hj]]%call_is_insert;
      [| done].
    intros [[-> (? & ? & [=])] | [_ Hj']]%call_is_insert; [| done].
    eapply serial_single; eauto.
Qed.

Lemma serial_next w k now w' :
  serial (session w) (calls w) →
  step w (Next k now) = Some w' →
  serial (session w') (calls w').
Proof.
  intros Hs Hstep. simpl in Hstep.
  destruct (calls w !! k) as [[| content resume msgs failure |] |] eqn:Hk;
    try done.
  destruct msgs as [|m rest].
  - assert (running (calls w) k) as Hr by (eexists; split; eauto).
    destruct failure as [error|].
    + destruct (broadcastError _ _ _) as [s' net']. injection Hstep as <-.
      by eapply serial_settle.
    + injection Hstep as <-. by eapply serial_settle.
  - destruct (on_message_frame (session w) (db w) (net w) m now)
      as (_ & Hq & _).
    destruct (on_message _ _ _ _ _) as [[s' db'] net'].
    injection Hstep as <-. simpl in *. by eapply serial_replace.
Qed.

Lemma serial_reset s cs :
  serial s cs → existsb is_streaming cs = false → serial (reset s) cs.
Proof.
  intros Hs Hno. constructor; simpl.
  - intros k Hk. by apply no_running in Hk.
  - done.
  - intros k p Hk. destruct (serial_waiter _ _ Hs k p Hk) as [Hr | [Hsp _]].
    + by apply no_running in Hr.
    + by right.
  - apply Hs.
Qed.

(** Every admissible event keeps the invariant. *)
Lemma serial_step w e w' :
  serial (session w) (calls w) →
  admissible w e = true →
  step w e = Some w' →
  serial (session w') (calls w').
Proof.
  intros Hs Hadm Hstep. destruct e as [c st | k | k now | | ws | ws | ws].
  - by eapply serial_submit.
  - by eapply serial_wake.
  - by eapply serial_next.
  - injection Hstep as <-. simpl in *. apply negb_true_iff in Hadm.
    by apply serial_reset.
  - simpl in Hstep. injection Hstep as <-. simpl.
    by eapply serial_ext; [| exact Hs].
  - injection Hstep as <-. simpl. by eapply serial_ext; [| exact Hs].
  - injection Hstep as <-. simpl. done.
Qed.

Lemma serial_run tr : ∀ w w',
  serial (session w) (calls w) →
  disciplined w tr = true →
  run w tr = Some w' →
  serial (session w') (calls w').
Proof.
  induction tr as [|e tr IH]; intros w w' Hs Hd Hrun; simpl in *.
  - by injection Hrun as <-.
  - apply andb_true_iff in Hd as [Hadm Hd].
    destruct (step w e) as [w1|] eqn:Hstep; [| done].
    eapply IH; [| done | done]. by eapply serial_step.
Qed.

Lemma serial_fresh id db net now :
  serial (session (fresh id db net now)) (calls (fresh id db net now)).
Proof.
  simpl. constructor; simpl; try done.
  - by intros k (c & Hc & _).
  - by intros k p (c & Hc & _).
  - by intros k k' p p' (c & Hc & _).
Qed.

Lemma elem_of_in_flight w k : k ∈ in_flight w ↔ running (calls w) k.
Proof.
  unfold in_flight, running, call_is.
  rewrite list_elem_of_filter, elem_of_seq. split.
  - intros [Hs _]. destruct (calls w !! k) as [c|]; [| done]. eauto.
  - intros (c & Hc & Hs). rewrite Hc. split; [done |].
    apply lookup_lt_Some in Hc. lia.
Qed.

Lemma in_flight_NoDup w : NoDup (in_flight w).
Proof. apply NoDup_filter, NoDup_seq. Qed.

(** C1, as the code has it. A call of [addUserMessage] made while
    [queryPromise] is set starts no invocation: it is suspended on that
    promise, and it goes on only once the call that owns the promise has
    settled. When every new call is made while no earlier call is still
    suspended, and [reset] is used only while no invocation is in flight,
    at most one engine invocation is in flight in every state the
    coordinator reaches. *)
Theorem disciplined_turns_never_overlap :
  (∀ id db net now tr w,
     run (fresh id db net now) tr = Some w →
     disciplined (fresh id db net now) tr = true →
     length (in_flight w) ≤ 1)
  ∧ (∀ w p content stream,
       queryPromise (session w) = Some p →
       step w (Submit content stream)
       = Some (mkCoordinator (session w) (db w) (net w)
                 (calls w ++ [AwaitingPrevious p content stream])))
  ∧ (∀ w k p content stream w',
       calls w !! k = Some (AwaitingPrevious p content stream) →
       step w (Wake k) = Some w' →
       calls w !! p = Some Settled).
Proof.
  split; [| split].
  - intros id db net now tr w Hrun Hd.
    pose proof (serial_run tr _ _ (serial_fresh id db net now) Hd Hrun) as Hs.
    pose proof (in_flight_NoDup w) as Hnd.
    destruct (in_flight w) as [|j [|k l]] eqn:Hfl; simpl; [lia | lia |].
    assert (j = k) as ->.
    { eapply serial_unique; [exact Hs | |]; apply elem_of_in_flight;
        rewrite Hfl; set_solver. }
    apply NoDup_cons in Hnd as [Hnd _]. destruct Hnd. by left.
  - intros w p content stream Hq. simpl. by rewrite Hq.
  - intros w k p content stream w' Hk Hstep. simpl in Hstep.
    rewrite Hk in Hstep.
    by destruct (calls w !! p) as [[| |] |].
Qed.

(** An instance: two calls, the second made during the first turn. *)
Lemma disciplined_turns_never_overlap_witness :
  ∃ w, run w0 two_callers = Some w
    ∧ disciplined w0 two_callers = true
    ∧ in_flight w = [1]
    ∧ length (in_flight w) ≤ 1.
Proof.
  eexists. split; [vm_compute; reflexivity |].
  split; [vm_compute; reflexivity |]. split; [vm_compute; reflexivity |].
  apply (proj1 disciplined_turns_never_overlap "s1" ∅ net0 0%Z two_callers);
    vm_compute; reflexivity.
Defined.

(** The claim as stated fails: two calls are made while the first turn
    runs; when it settles both wake, and their invocations are in flight
    together. *)
Lemma three_callers_overlap :
  ∃ w, run w0 three_callers = Some w ∧ in_flight w = [1; 2].
Proof. eexists. split; vm_compute; reflexivity. Qed.

(** [reset] during a turn detaches it: the next call starts at once, next
    to the invocation that still runs. *)
Lemma reset_detaches_running_turn :
  ∃ w, run w0 [Submit "a" (ok_stream "old" "hi"); Reset;
               Submit "b" (ok_stream "new" "yo")] = Some w
    ∧ in_flight w = [0; 1].
Proof. eexists. split; vm_compute; reflexivity. Qed.

(** ** Reset *)

Lemma resume_option_no_token s : sdkSessionId s = None → resume_option s = None.
Proof. unfold resume_option. by intros ->. Qed.

(** The token changes by [reset] and by a turn-start signal only. *)
Lemma step_token w e w' :
  step w e = Some w' → delivers_init w e = false → e ≠ Reset →
  sdkSessionId (session w') = sdkSessionId (session w).
Proof.
  intros Hstep Hinit Hne.
  destruct e as [c st | k | k now | | ws | ws | ws]; simpl in *.
  - destruct (queryPromise (session w)); by injection Hstep as <-.
  - destruct (calls w !! k) as [[p c st | |] |]; try done.
    destruct (calls w !! p) as [[| |] |]; try done. by injection Hstep as <-.
  - destruct (calls w !! k) as [[| c r [|m rest] [error|] |] |]; try done.
    + destruct (broadcastError_frame (session w) (net w) error)
        as ((_ & _ & _ & Ht) & _).
      destruct (broadcastError _ _ _) as [s' net'].
      by injection Hstep as <-.
    + by injection Hstep as <-.
    + destruct (on_message_other (session w) (db w) (net w) m now Hinit)
        as [Ht _].
      destruct (on_message _ _ _ _ _) as [[s' db'] net'].
      by injection Hstep as <-.
    + destruct (on_message_other (session w) (db w) (net w) m now Hinit)
        as [Ht _].
      destruct (on_message _ _ _ _ _) as [[s' db'] net'].
      by injection Hstep as <-.
  - done.
  - by injection Hstep as <-.
  - by injection Hstep as <-.
  - by injection Hstep as <-.
Qed.

Lemma run_keeps_no_token tr : ∀ w w1,
  run w tr = Some w1 → no_init_delivered w tr = true →
  sdkSessionId (session w) = None → sdkSessionId (session w1) = None.
Proof.
  induction tr as [|e tr IH]; intros w w1 Hrun Hq Ht; simpl in *.
  - by injection Hrun as <-.
  - apply andb_true_iff in Hq as [Hinit%negb_true_iff Hq].
    destruct (step w e) as [w'|] eqn:Hstep; [| done].
    apply (IH w' w1 Hrun Hq).
    assert (e = Reset ∨ e ≠ Reset) as [-> | Hne]
      by (destruct e; (by left) || (by right)).
    + by injection Hstep as <-.
    + erewrite step_token; eauto.
Qed.

(** An invocation that starts while no token is stored gets no [resume]. *)
Lemma start_without_token w e w' k :
  sdkSessionId (session w) = None →
  step w e = Some w' →
  ¬ running (calls w) k → running (calls w') k →
  ∃ content rest failure,
    calls w' !! k = Some (Streaming content None rest failure).
Proof.
  intros Ht Hstep Hnot Hrun.
  destruct e as [c st | j | j now | | ws | ws | ws]; simpl in Hstep.
  - destruct (queryPromise (session w)); injection Hstep as <-;
      simpl in *; apply call_is_snoc in Hrun as [Hrun | [-> Hrun]];
      try done.
    rewrite lookup_app_r, Nat.sub_diag by lia. simpl.
    rewrite resume_option_no_token by done. eauto.
  - destruct (calls w !! j) as [[p c st | |] |] eqn:Hj; try done.
    destruct (calls w !! p) as [[| |] |]; try done.
    injection Hstep as <-. simpl in *.
    assert (j < length (calls w)) as Hlt by (by eapply lookup_lt_Some).
    apply call_is_insert in Hrun as [[-> _] | [_ Hrun]]; try done.
    rewrite list_lookup_insert_eq by done.
    rewrite resume_option_no_token by done. eauto.
  - destruct (calls w !! j) as [[| c r msgs f |] |] eqn:Hj; try done.
    assert (j < length (calls w)) as Hlt by (by eapply lookup_lt_Some).
    assert (running (calls w) j) as Hrj by (eexists; split; eauto).
    destruct msgs as [|m rest]; [destruct f as [error|] |].
    + destruct (broadcastError _ _ _). injection Hstep as <-. simpl in *.
      by apply call_is_insert in Hrun as [[-> ?] | [_ Hrun]].
    + injection Hstep as <-. simpl in *.
      by apply call_is_insert in Hrun as [[-> ?] | [_ Hrun]].
    + destruct (on_message _ _ _ _ _) as [[s' db'] net'].
      injection Hstep as <-. simpl in *.
      by apply call_is_insert in Hrun as [[-> ?] | [_ Hrun]].
  - by injection Hstep as <-.
  - by injection Hstep as <-.
  - by injection Hstep as <-.
  - by injection Hstep as <-.
Qed.

(** C6, as the code has it. [reset] clears the token, the message count
    and [queryPromise] in any state, also while an invocation is in flight,
    and touches no call: the invocation goes on. An [addUserMessage] right
    after the reset invokes the engine without [resume]; more generally, as
    long as no turn-start signal has been handled since the reset (a
    detached invocation that still gets one stores its token again), every
    invocation that starts has no [resume]. *)
Theorem reset_then_fresh_turn (w : Coordinator) :
  ∃ wr, step w Reset = Some wr
    ∧ sdkSessionId (session wr) = None
    ∧ messageCount (session wr) = 0
    ∧ queryPromise (session wr) = None
    ∧ calls wr = calls w
    ∧ in_flight wr = in_flight w
    ∧ (∀ content stream,
         step wr (Submit content stream)
         = Some (mkCoordinator
                   (mkSession (id (session w)) (Some (length (calls w)))
                              (subscribers (session w)) 1 None)
                   (db w) (net w)
                   (calls w
                      ++ [Streaming content None (fst stream) (snd stream)])))
    ∧ (∀ tr w1 e w2 k,
         run wr tr = Some w1 → no_init_delivered wr tr = true →
         step w1 e = Some w2 →
         ¬ running (calls w1) k → running (calls w2) k →
         ∃ content rest failure,
           calls w2 !! k = Some (Streaming content None rest failure)).
Proof.
  eexists. split; [reflexivity |]. simpl. repeat split.
  intros tr w1 e w2 k Hrun Hq Hstep Hnot Hk.
  eapply start_without_token; eauto.
  eapply run_keeps_no_token; eauto.
Qed.

(** An instance on [mid_turn]: [reset], a subscriber joins, and the next
    message starts a turn without [resume] next to the turn that still
    runs. *)
Lemma reset_then_fresh_turn_witness :
  ∃ w2, run mid_turn [Reset; Subscribe 9;
                      Submit "b" (ok_stream "new" "yo")] = Some w2
    ∧ in_flight w2 = [0; 1]
    ∧ ∃ content rest failure,
        calls w2 !! 1 = Some (Streaming content None rest failure).
Proof.
  destruct (reset_then_fresh_turn mid_turn)
    as (wr & Hr & _ & _ & _ & _ & _ & _ & H).
  vm_compute in Hr. injection Hr as <-.
  eexists. split; [vm_compute; reflexivity |].
  split; [vm_compute; reflexivity |].
  eapply (H [Subscribe 9] _ (Submit "b" (ok_stream "new" "yo")) _ 1).
  - vm_compute. reflexivity.
  - vm_compute. reflexivity.
  - vm_compute. reflexivity.
  - intros (c & Hc & _). vm_compute in Hc. discriminate Hc.
  - eexists. split; vm_compute; reflexivity.
Defined.

(** The claim as stated fails: the first turn is in flight when [reset] is
    called; its turn-start signal is handled after the reset; the next
    message is then sent to the engine with [resume] set to the old
    token. *)
Lemma reset_race_resumes_old_conversation :
  ∃ w rest failure,
    run w0 reset_race = Some w
    ∧ calls w !! 1 = Some (Streaming "b" (Some "old") rest failure).
Proof. eexists _, _, _. split; vm_compute; reflexivity. Qed.

(** C10. [reset] leaves the session id, the subscriber set, the table, the
    transport and the calls as they are; it changes the token, the message
    count and [queryPromise] only. Hence a [broadcast] after the reset
    does to the sockets what it would have done before it: the same sends
    to the same subscribers, and the same subscribers left. *)
Theorem reset_keeps_subscribers_and_row (w : Coordinator) :
  ∃ wr, step w Reset = Some wr
    ∧ id (session wr) = id (session w)
    ∧ subscribers (session wr) = subscribers (session w)
    ∧ db wr = db w
    ∧ net wr = net w
    ∧ calls wr = calls w
    ∧ ∀ m,
        snd (broadcast (session wr) (net wr) m)
        = snd (broadcast (session w) (net w) m)
        ∧ subscribers (fst (broadcast (session wr) (net wr) m))
          = subscribers (fst (broadcast (session w) (net w) m))
        ∧ (∀ ws, ws ∈ subscribers (session w) → ws ∉ failing (net w) →
             (ws, m, true)
               ∈ attempts (snd (broadcast (session wr) (net wr) m))).
Proof.
  eexists. split; [reflexivity |]. simpl. repeat split.
  - by rewrite !broadcast_eq.
  - by rewrite !broadcast_eq.
  - intros ws Hin Hf. rewrite broadcast_eq. simpl.
    apply elem_of_app. right. apply list_elem_of_fmap. exists ws.
    split; [| done]. f_equal. symmetry. by apply accepts_true.
Qed.

(** An instance on [mid_turn]. *)
Lemma reset_keeps_subscribers_and_row_witness :
  ∃ wr, step mid_turn Reset = Some wr
    ∧ subscribers (session wr) = [7; 8]
    ∧ db wr !! "s1" = Some (mkRow (Some "old") 0 1 1)
    ∧ (8, error_message "x" "s1", true)
        ∈ attempts (snd (broadcast (session wr) (net wr)
                           (error_message "x" "s1"))).
Proof.
  destruct (reset_keeps_subscribers_and_row mid_turn)
    as (wr & Hr & _ & Hsubs & Hdb & _ & _ & Hb).
  exists wr. split; [exact Hr |]. split; [exact Hsubs |]. split.
  - rewrite Hdb. vm_compute. reflexivity.
  - apply (Hb (error_message "x" "s1")).
    + apply elem_of_cons. right. by apply list_elem_of_singleton.
    + apply not_elem_of_nil.
Defined.

(** ** Construction and the stored record *)

(** C8, as the code has it. The constructor does not read the table: the
    new coordinator has no token and message count 0 whatever the row of
    its id holds, and [INSERT OR IGNORE] leaves an existing row as it is (a
    missing one is created zeroed). So [open] for an id that is not
    registered but has a row registers such a blank coordinator. During
    the life of a coordinator the token changes in two ways only: [reset]
    clears it and a turn-start signal replaces it; every other event keeps
    it, across turns. *)
Theorem new_Session_does_not_load_record :
  (∀ id db now,
     fst (new_Session id db now) = mkSession id None [] 0 None
     ∧ (∀ r, db !! id = Some r → snd (new_Session id db now) = db)
     ∧ (db !! id = None →
        snd (new_Session id db now) = <[id := mkRow None now now 0]> db))
  ∧ (∀ w ws sid now r,
       sessions w !! sid = None → sdb w !! sid = Some r →
       resolve (open w ws sid now) sid = Some (mkSession sid None [ws] 0 None)
       ∧ sdb (open w ws sid now) = sdb w)
  ∧ (∀ w e w',
       step w e = Some w' → e ≠ Reset → delivers_init w e = false →
       sdkSessionId (session w') = sdkSessionId (session w))
  ∧ (∀ w k now tok content resume rest failure w',
       calls w !! k
       = Some (Streaming content resume (init_msg tok :: rest) failure) →
       step w (Next k now) = Some w' →
       sdkSessionId (session w') = Some tok).
Proof.
  split; [| split; [| split]].
  - intros id db now. unfold new_Session, insert_or_ignore. simpl.
    split; [done |]. split.
    + by intros r ->.
    + by intros ->.
  - intros w ws sid now r Hreg Hrow. unfold open, resolve.
    rewrite Hreg. simpl. unfold insert_or_ignore. rewrite Hrow. simpl.
    rewrite lookup_insert_eq. simpl.
    by rewrite lookup_app_r, Nat.sub_diag by lia.
  - intros w e w' Hstep Hne Hinit. by eapply step_token.
  - intros w k now tok content resume rest failure w' Hk Hstep.
    simpl in Hstep. rewrite Hk in Hstep. by injection Hstep as <-.
Qed.

(** An instance: a row left by an earlier coordinator of the same id. *)
Lemma new_Session_does_not_load_record_witness :
  let stored : gmap string Row := {["s1" := mkRow (Some "abc") 0 1 1]} in
  snd (new_Session "s1" stored 100) = stored
  ∧ resolve (open (mkServer [] ∅ stored net0 []) 7 "s1" 100) "s1"
    = Some (mkSession "s1" None [7] 0 None)
  ∧ ∃ w', step mid_turn (Subscribe 9) = Some w'
      ∧ sdkSessionId (session w') = Some "old".
Proof.
  intros stored.
  destruct new_Session_does_not_load_record as (Hnew & Hopen & Hkeep & _).
  split; [| split].
  - apply (proj1 (proj2 (Hnew "s1" stored 100%Z)) (mkRow (Some "abc") 0 1 1)).
    vm_compute. reflexivity.
  - apply (Hopen (mkServer [] ∅ stored net0 []) 7 "s1" 100%Z
             (mkRow (Some "abc") 0 1 1)); vm_compute; reflexivity.
  - destruct (step mid_turn (Subscribe 9)) as [w'|] eqn:Hstep;
      [| discriminate Hstep].
    exists w'. split; [reflexivity |].
    rewrite (Hkeep mid_turn (Subscribe 9) w' Hstep);
      [reflexivity | discriminate | reflexivity].
Defined.

(** The claim as stated fails: after one turn the row of "s1" holds the
    token and the count; a coordinator constructed for "s1" over that
    table, as [open] does for an id that is no longer registered, holds
    neither. *)
Lemma constructor_ignores_stored_record :
  ∃ w r, run w0 one_turn = Some w
    ∧ db w !! "s1" = Some r
    ∧ session_id r = Some "abc" ∧ message_count r = 1
    ∧ sdkSessionId (fst (new_Session "s1" (db w) 100)) = None
    ∧ messageCount (fst (new_Session "s1" (db w) 100)) = 0
    ∧ resolve (open (mkServer [] ∅ (db w) net0 []) 7 "s1" 100) "s1"
      = Some (mkSession "s1" None [7] 0 None).
Proof.
  eexists _, _. split; [vm_compute; reflexivity |].
  split; [vm_compute; reflexivity |]. repeat split; vm_compute; reflexivity.
Qed.

(** ** Eviction *)






(** A further remark on eviction: the callback holds the [session] object it was created for
    and deletes by session id. A timer that outlives its coordinator
    removes the entry of the coordinator that was constructed for the same
    id in the meantime, although that one has a subscriber. *)
Lemma stale_timer_removes_new_coordinator :
  ∃ w, server_run server0 stale_timer = Some w
    ∧ heap w !! 1 = Some (mkSession "s1" None [3] 0 None)
    ∧ resolve w "s1" = None.
Proof.
  eexists. split; [vm_compute; reflexivity |]. split; vm_compute; reflexivity.
Qed.

(** ** The example states are reached *)

Example mid_turn_reached :
  run w0 [Subscribe 7; Subscribe 8; Submit "a" (ok_stream "old" "hi");
          Next 0 1%Z] = Some mid_turn.
Proof. vm_compute. reflexivity. Qed.

(** ** The scenario of the first turn *)

(** Session "s1" has no token and one subscriber; "hello" is submitted and
    the engine yields a turn-start signal with token "abc", the reply "hi"
    and a successful result. The row then holds the token and count 1, and
    the subscriber was sent the reply and then the result. *)
Example first_turn_scenario :
  ∃ w, run w0 (Subscribe 7 :: one_turn) = Some w
    ∧ db w !! "s1" = Some (mkRow (Some "abc") 0 1 1)
    ∧ attempts (net w)
      = [(7, session_info "s1" 0 false, true);
         (7, assistant_message "hi" "s1", true);
         (7, result true (VStr "hi") (VNum 1) (VNum 20) VUndefined "s1",
          true)].
Proof.
  eexists. split; [vm_compute; reflexivity |]. split; vm_compute; reflexivity.
Qed.

(** * Further properties of the code *)

(** ** The subscriber set *)

Lemma set_add_NoDup ws l : NoDup l → NoDup (set_add ws l).
Proof.
  intros Hnd. unfold set_add. case_bool_decide as Hin; [done |].
  apply NoDup_app. split; [done |]. split; [| apply NoDup_singleton].
  intros x Hx ->%list_elem_of_singleton. done.
Qed.

Lemma set_delete_NoDup ws l : NoDup l → NoDup (set_delete ws l).
Proof. intros Hnd. by apply NoDup_filter. Qed.

Lemma sends_to_app ws f a1 a2 :
  sends_to ws (mkNet f (a1 ++ a2))
  = sends_to ws (mkNet f a1) ++ omap (addressed_to ws) a2.
Proof. unfold sends_to. simpl. apply omap_app. Qed.

(** One round of [broadcast] as seen from one socket. *)
Lemma omap_addressed_round ws m (ok : conn → bool) subs :
  NoDup subs →
  omap (addressed_to ws) ((λ x, (x, m, ok x)) <$> subs)
  = if bool_decide (ws ∈ subs) then [(m, ok ws)] else [].
Proof.
  induction 1 as [|x subs Hx Hnd IH]; [done |].
  rewrite fmap_cons.
  change (omap (addressed_to ws) ((x, m, ok x) :: ((λ x, (x, m, ok x)) <$> subs)))
    with (match addressed_to ws (x, m, ok x) with
          | Some y => y :: omap (addressed_to ws) ((λ x, (x, m, ok x)) <$> subs)
          | None => omap (addressed_to ws) ((λ x, (x, m, ok x)) <$> subs)
          end).
  rewrite IH. unfold addressed_to. simpl.
  destruct (decide (x = ws)) as [-> | Hne].
  - rewrite bool_decide_eq_true_2 by done.
    rewrite (bool_decide_eq_false_2 (ws ∈ subs)) by done.
    rewrite (bool_decide_eq_true_2 (ws ∈ ws :: subs)) by (by left). done.
  - rewrite bool_decide_eq_false_2 by done.
    rewrite (bool_decide_ext (ws ∈ x :: subs) (ws ∈ subs)); [done |].
    rewrite elem_of_cons. split; [| by right]. by intros [-> | ?].
Qed.

Lemma sends_to_broadcast s net m ws :
  NoDup (subscribers s) →
  sends_to ws (snd (broadcast s net m))
  = sends_to ws net
    ++ if bool_decide (ws ∈ subscribers s) then [(m, accepts net ws)] else [].
Proof.
  intros Hnd. rewrite broadcast_eq. simpl. rewrite sends_to_app.
  rewrite omap_addressed_round by done. by destruct net.
Qed.

Lemma broadcast_NoDup s net m :
  NoDup (subscribers s) → NoDup (subscribers (fst (broadcast s net m))).
Proof. intros Hnd. rewrite broadcast_eq. simpl. by apply NoDup_filter. Qed.

Lemma broadcast_outsider s net m ws :
  ws ∉ subscribers s → ws ∉ subscribers (fst (broadcast s net m)).
Proof.
  intros Hout. rewrite broadcast_eq. simpl.
  rewrite list_elem_of_filter. by intros [_ Hin].
Qed.

Lemma omap_addressed_outsider ws m (ok : conn → bool) subs :
  ws ∉ subs → omap (addressed_to ws) ((λ x, (x, m, ok x)) <$> subs) = [].
Proof.
  induction subs as [|x subs IH]; intros Hout; [done |].
  apply not_elem_of_cons in Hout as [Hne Hout]. rewrite fmap_cons.
  change (omap (addressed_to ws) ((x, m, ok x) :: ((λ x, (x, m, ok x)) <$> subs)))
    with (match addressed_to ws (x, m, ok x) with
          | Some y => y :: omap (addressed_to ws) ((λ x, (x, m, ok x)) <$> subs)
          | None => omap (addressed_to ws) ((λ x, (x, m, ok x)) <$> subs)
          end).
  rewrite IH by done. unfold addressed_to. simpl.
  by rewrite bool_decide_eq_false_2 by done.
Qed.

Lemma sends_to_broadcast_outsider s net m ws :
  ws ∉ subscribers s → sends_to ws (snd (broadcast s net m)) = sends_to ws net.
Proof.
  intros Hout. rewrite broadcast_eq. simpl. rewrite sends_to_app.
  rewrite omap_addressed_outsider by done. rewrite app_nil_r. by destruct net.
Qed.

(** ** The translation table *)

Lemma broadcast_blocks_table blocks : ∀ s net,
  broadcast_blocks s net blocks
  = publish s net (omap (block_wsMessage (id s)) blocks).
Proof.
  induction blocks as [|b rest IH]; intros s net; [done |].
  cbn [broadcast_blocks].
  change (omap (block_wsMessage (id s)) (b :: rest))
    with (match block_wsMessage (id s) b with
          | Some y => y :: omap (block_wsMessage (id s)) rest
          | None => omap (block_wsMessage (id s)) rest
          end).
  destruct (block_wsMessage (id s) b) as [m|]; [| apply IH].
  cbn [publish].
  destruct (broadcast_frame s net m) as ((Hid & _) & _).
  destruct (broadcast s net m) as [s1 net1]. simpl in Hid.
  rewrite IH. by rewrite Hid.
Qed.

(** X2. For every engine message, [broadcastToSubscribers] is one
    [broadcast] per payload of the translation table, in the order of the
    table: the text of a string content; one payload per text or tool-use
    block of an array content and none for any other block; one [result]
    payload; the user echo; and nothing at all for system messages
    (the turn-start signal included), for messages of any other type and
    for an assistant message whose content is neither string nor array. *)
Theorem broadcastToSubscribers_follows_table (s : Session) (net : Net)
    (message : sdk_message) :
  broadcastToSubscribers s net message
  = publish s net (payloads (id s) message).
Proof.
  destruct message as [st sid | [c | blocks |] | c | st r c d |]; simpl;
    try done.
  - by destruct (broadcast s net _).
  - apply broadcast_blocks_table.
  - by destruct (broadcast s net _).
  - case_bool_decide; simpl; by destruct (broadcast s net _).
Qed.

Lemma publish_subscribers ms : ∀ s net,
  (NoDup (subscribers s) → NoDup (subscribers (fst (publish s net ms))))
  ∧ (∀ ws, ws ∉ subscribers s → ws ∉ subscribers (fst (publish s net ms))).
Proof.
  induction ms as [|m ms IH]; intros s net; [done |]. simpl.
  pose proof (broadcast_NoDup s net m) as Hnd.
  pose proof (broadcast_outsider s net m) as Hout.
  destruct (broadcast s net m) as [s1 net1]. simpl in *.
  destruct (IH s1 net1) as [Hnd' Hout']. split; [auto |].
  intros ws Hws. apply Hout'. by apply Hout.
Qed.

Lemma publish_sends_healthy ms : ∀ s net ws,
  NoDup (subscribers s) → ws ∈ subscribers s → ws ∉ failing net →
  sends_to ws (snd (publish s net ms))
  = sends_to ws net ++ ((λ m, (m, true)) <$> ms).
Proof.
  induction ms as [|m ms IH]; intros s net ws Hnd Hin Hok; simpl.
  - by rewrite app_nil_r.
  - pose proof (sends_to_broadcast s net m ws Hnd) as Hsend.
    pose proof (broadcast_NoDup s net m Hnd) as Hnd1.
    destruct (broadcast_frame s net m) as (_ & Hk & Hf).
    destruct (broadcast s net m) as [s1 net1]. simpl in *.
    rewrite IH; [| done | by apply Hk | by rewrite Hf].
    rewrite Hsend. rewrite bool_decide_eq_true_2 by done.
    rewrite (proj2 (accepts_true net ws)) by done.
    by rewrite <- app_assoc.
Qed.

Lemma publish_sends_outsider ms : ∀ s net ws,
  ws ∉ subscribers s →
  sends_to ws (snd (publish s net ms)) = sends_to ws net.
Proof.
  induction ms as [|m ms IH]; intros s net ws Hout; simpl; [done |].
  pose proof (sends_to_broadcast_outsider s net m ws Hout) as Hsend.
  pose proof (broadcast_outsider s net m ws Hout) as Hout1.
  destruct (broadcast s net m) as [s1 net1]. simpl in *.
  rewrite IH by done. done.
Qed.

(** What [on_message] does to the sockets is what [broadcastToSubscribers]
    does. *)
Lemma on_message_sockets s db net m now :
  subscribers (fst (fst (on_message s db net m now)))
  = subscribers (fst (broadcastToSubscribers s net m))
  ∧ snd (on_message s db net m now) = snd (broadcastToSubscribers s net m).
Proof.
  unfold on_message. destruct (broadcastToSubscribers s net m) as [s1 net1].
  destruct m as [st sid | | | |]; simpl; try done.
  by case_bool_decide.
Qed.

Lemma on_message_NoDup s db net m now :
  NoDup (subscribers s) →
  NoDup (subscribers (fst (fst (on_message s db net m now)))).
Proof.
  intros Hnd. rewrite (proj1 (on_message_sockets s db net m now)).
  rewrite broadcastToSubscribers_follows_table. by apply publish_subscribers.
Qed.

Lemma step_NoDup w e w' :
  NoDup (subscribers (session w)) → step w e = Some w' →
  NoDup (subscribers (session w')).
Proof.
  intros Hnd Hstep.
  destruct e as [c st | k | k now | | ws | ws | ws]; simpl in Hstep.
  - destruct (queryPromise (session w)); by injection Hstep as <-.
  - destruct (calls w !! k) as [[p c st | |] |]; try done.
    destruct (calls w !! p) as [[| |] |]; try done. by injection Hstep as <-.
  - destruct (calls w !! k) as [[| c r [|m rest] [error|] |] |]; try done.
    + pose proof (broadcast_NoDup (session w) (net w)
                    (error_message error (id (session w))) Hnd) as Hnd'.
      unfold broadcastError in Hstep.
      destruct (broadcast _ _ _) as [s' net']. by injection Hstep as <-.
    + by injection Hstep as <-.
    + pose proof (on_message_NoDup (session w) (db w) (net w) m now Hnd).
      destruct (on_message _ _ _ _ _) as [[s' db'] net'].
      by injection Hstep as <-.
    + pose proof (on_message_NoDup (session w) (db w) (net w) m now Hnd).
      destruct (on_message _ _ _ _ _) as [[s' db'] net'].
      by injection Hstep as <-.
  - by injection Hstep as <-.
  - injection Hstep as <-. simpl. by apply set_add_NoDup.
  - injection Hstep as <-. simpl. by apply set_delete_NoDup.
  - by injection Hstep as <-.
Qed.

Lemma run_NoDup tr : ∀ w w',
  NoDup (subscribers (session w)) → run w tr = Some w' →
  NoDup (subscribers (session w')).
Proof.
  induction tr as [|e tr IH]; intros w w' Hnd Hrun; simpl in Hrun.
  - by injection Hrun as <-.
  - destruct (step w e) as [w1|] eqn:Hstep; [| done].
    eapply IH; [| done]. by eapply step_NoDup.
Qed.

(** X1. The subscribers of a coordinator form a set in every state it
    reaches: no connection is held twice. Subscribing a connection that is
    subscribed already leaves the set as it is, and a [broadcast] calls
    [send] exactly once for a subscriber. *)
Theorem subscribers_form_a_set (sid : string) (rows : gmap string Row)
    (sockets : Net) (now : Z) (tr : list event) (w : Coordinator) :
  run (fresh sid rows sockets now) tr = Some w →
  NoDup (subscribers (session w))
  ∧ (∀ ws, ws ∈ subscribers (session w) →
       ∃ w', step w (Subscribe ws) = Some w'
         ∧ subscribers (session w') = subscribers (session w))
  ∧ (∀ ws m, ws ∈ subscribers (session w) →
       sends_to ws (snd (broadcast (session w) (net w) m))
       = sends_to ws (net w) ++ [(m, accepts (net w) ws)]).
Proof.
  intros Hrun.
  assert (NoDup (subscribers (session w))) as Hnd.
  { eapply run_NoDup; [| exact Hrun]. simpl. apply NoDup_nil_2. }
  split; [done |]. split.
  - intros ws Hin. eexists. split; [reflexivity |]. simpl.
    unfold set_add. by rewrite bool_decide_eq_true_2.
  - intros ws m Hin. rewrite sends_to_broadcast by done.
    by rewrite bool_decide_eq_true_2.
Qed.

(** An instance: socket 7 subscribes twice before the first turn. *)
Lemma subscribers_form_a_set_witness :
  ∃ w, run w0 (Subscribe 7 :: Subscribe 7 :: one_turn) = Some w
    ∧ subscribers (session w) = [7]
    ∧ NoDup (subscribers (session w))
    ∧ sends_to 7 (net w)
      = [(session_info "s1" 0 false, true);
         (session_info "s1" 0 false, true);
         (assistant_message "hi" "s1", true);
         (result true (VStr "hi") (VNum 1) (VNum 20) VUndefined "s1", true)].
Proof.
  eexists. split; [vm_compute; reflexivity |].
  split; [vm_compute; reflexivity |]. split.
  - apply (subscribers_form_a_set "s1" ∅ net0 0%Z
             (Subscribe 7 :: Subscribe 7 :: one_turn)).
    vm_compute. reflexivity.
  - vm_compute. reflexivity.
Defined.

(** ** What a subscriber is sent during a turn *)

Lemma drain_sends msgs : ∀ times s rows sockets ws,
  length times = length msgs →
  NoDup (subscribers s) → ws ∈ subscribers s → ws ∉ failing sockets →
  let res := drain s rows sockets msgs times in
  sends_to ws (snd res)
  = sends_to ws sockets
    ++ ((λ m, (m, true)) <$> concat (payloads (id s) <$> msgs))
  ∧ NoDup (subscribers (fst (fst res)))
  ∧ ws ∈ subscribers (fst (fst res))
  ∧ failing (snd res) = failing sockets
  ∧ id (fst (fst res)) = id s.
Proof.
  induction msgs as [|m msgs IH]; intros [|t times] s rows sockets ws
    Hlen Hnd Hin Hok; try discriminate; simpl.
  - by rewrite app_nil_r.
  - destruct (on_message_frame s rows sockets m t) as (Hid & _ & _ & Hk & Hf).
    destruct (on_message_sockets s rows sockets m t) as [Hsubs Hnet].
    pose proof (on_message_NoDup s rows sockets m t Hnd) as Hnd1.
    rewrite broadcastToSubscribers_follows_table in Hnet.
    pose proof (publish_sends_healthy (payloads (id s) m) s sockets ws
                  Hnd Hin Hok) as Hsend.
    rewrite <- Hnet in Hsend.
    destruct (on_message s rows sockets m t) as [[s1 rows1] sockets1].
    simpl in *.
    destruct (IH times s1 rows1 sockets1 ws) as (Hs & Hn & Hi & Hf' & Hid');
      [by injection Hlen | done | by apply Hk | by rewrite Hf |].
    rewrite Hs, Hsend, Hid. rewrite fmap_app, app_assoc.
    repeat split; try done; congruence.
Qed.

(** X3. During a turn that starts from idle, a subscriber whose socket
    accepts sends is sent exactly the payloads of the turn, each once and in
    the order in which the engine produced them: the payloads of the first
    message, then those of the second, and so on, and last the [error]
    payload when the stream threw. Two such subscribers are therefore sent
    the same sequence. *)
Theorem turn_reaches_subscribers_in_order (w : Coordinator) (content : string)
    (msgs : list sdk_message) (fin : option string) (times : list Z)
    (tend : Z) (ws : conn) :
  queryPromise (session w) = None →
  length times = length msgs →
  NoDup (subscribers (session w)) →
  ws ∈ subscribers (session w) → ws ∉ failing (net w) →
  ∃ w', run w (Submit content (msgs, fin)
                 :: turn (length (calls w)) times tend) = Some w'
    ∧ sends_to ws (net w')
      = sends_to ws (net w)
        ++ ((λ m, (m, true))
              <$> (concat (payloads (id (session w)) <$> msgs)
                   ++ match fin with
                      | Some error => [error_message error (id (session w))]
                      | None => []
                      end)).
Proof.
  intros Hidle Hlen Hnd Hin Hok. unfold turn.
  rewrite run_turn by done. cbv zeta.
  set (s1 := with_queryPromise _ _).
  destruct (drain_sends msgs times s1 (db w) (net w) ws Hlen Hnd Hin Hok)
    as (Hs & Hn & Hi & Hf & Hid).
  destruct (drain s1 (db w) (net w) msgs times) as [[s2 rows2] sockets2].
  simpl in *. destruct fin as [error|].
  - pose proof (sends_to_broadcast s2 sockets2
                  (error_message error (id s2)) ws Hn) as Hsend.
    unfold broadcastError.
    destruct (broadcast s2 sockets2 _) as [s3 sockets3]. simpl in *.
    eexists. split; [reflexivity |]. simpl.
    rewrite Hsend, Hs. rewrite bool_decide_eq_true_2 by done.
    rewrite (proj2 (accepts_true sockets2 ws)) by (by rewrite Hf).
    rewrite Hid. by rewrite fmap_app, app_assoc.
  - eexists. split; [reflexivity |]. simpl. by rewrite app_nil_r.
Qed.

(** An instance: two subscribers, a turn with a reply made of a text and a
    tool invocation, and a stream that throws at the end. *)
Lemma turn_reaches_subscribers_in_order_witness :
  let w := mkCoordinator (mkSession "s1" None [7; 8] 0 None)
             {["s1" := mkRow None 0 0 0]} net0 [] in
  let msgs := [init_msg "abc";
               AssistantMsg (ArrContent
                 [TextBlock "hi"; ToolUseBlock "Bash" "t1" (VStr "ls")])] in
  ∃ w', run w (Submit "hello" (msgs, Some "boom") :: turn 0 [1%Z; 2%Z] 3%Z)
        = Some w'
    ∧ sends_to 8 (net w')
      = [(assistant_message "hi" "s1", true);
         (tool_use "Bash" "t1" (VStr "ls") "s1", true);
         (error_message "boom" "s1", true)]
    ∧ sends_to 7 (net w') = sends_to 8 (net w').
Proof.
  intros w msgs.
  destruct (turn_reaches_subscribers_in_order w "hello" msgs (Some "boom")
              [1%Z; 2%Z] 3%Z 8) as (w' & Hrun & H8).
  - reflexivity.
  - reflexivity.
  - apply NoDup_cons. split; [| apply NoDup_singleton].
    rewrite list_elem_of_singleton. discriminate.
  - apply elem_of_cons. right. by apply list_elem_of_singleton.
  - apply not_elem_of_nil.
  - exists w'. split; [exact Hrun |]. split; [exact H8 |].
    vm_compute in Hrun. injection Hrun as <-. vm_compute. reflexivity.
Defined.

(** ** Connections that are not subscribed *)

Lemma sends_to_snoc_other ws ws' f a m ok :
  ws' ≠ ws →
  sends_to ws (mkNet f (a ++ [(ws', m, ok)])) = sends_to ws (mkNet f a).
Proof.
  intros Hne. rewrite sends_to_app. simpl. unfold addressed_to. simpl.
  rewrite bool_decide_eq_false_2 by done. by rewrite app_nil_r.
Qed.

Lemma step_outsider w e w' ws :
  ws ∉ subscribers (session w) → e ≠ Subscribe ws → step w e = Some w' →
  (ws ∉ subscribers (session w'))
  ∧ sends_to ws (net w') = sends_to ws (net w).
Proof.
  intros Hout Hne Hstep.
  destruct e as [c st | k | k now | | ws' | ws' | ws']; simpl in Hstep.
  - destruct (queryPromise (session w)); by injection Hstep as <-.
  - destruct (calls w !! k) as [[p c st | |] |]; try done.
    destruct (calls w !! p) as [[| |] |]; try done. by injection Hstep as <-.
  - assert (∀ m, (ws ∉ subscribers
                        (fst (fst (on_message (session w) (db w) (net w) m now))))
                 ∧ sends_to ws
                     (snd (on_message (session w) (db w) (net w) m now))
                   = sends_to ws (net w)) as Hmsg.
    { intros m.
      destruct (on_message_sockets (session w) (db w) (net w) m now)
        as [-> ->].
      rewrite broadcastToSubscribers_follows_table. split.
      - by apply publish_subscribers.
      - by apply publish_sends_outsider. }
    destruct (calls w !! k) as [[| c r [|m rest] [error|] |] |]; try done.
    + pose proof (broadcast_outsider (session w) (net w)
                    (error_message error (id (session w))) ws Hout) as Ho.
      pose proof (sends_to_broadcast_outsider (session w) (net w)
                    (error_message error (id (session w))) ws Hout) as Hs.
      unfold broadcastError in Hstep.
      destruct (broadcast _ _ _) as [s' net']. by injection Hstep as <-.
    + by injection Hstep as <-.
    + specialize (Hmsg m).
      destruct (on_message _ _ _ _ _) as [[s' db'] net'].
      by injection Hstep as <-.
    + specialize (Hmsg m).
      destruct (on_message _ _ _ _ _) as [[s' db'] net'].
      by injection Hstep as <-.
  - by injection Hstep as <-.
  - injection Hstep as <-. simpl.
    assert (ws' ≠ ws) as Hne' by (by intros ->). split.
    + unfold set_add. case_bool_decide; [done |].
      rewrite elem_of_app, list_elem_of_singleton. by intros [? | ?].
    + by apply sends_to_snoc_other.
  - injection Hstep as <-. simpl. split; [| done].
    rewrite set_delete_spec. by intros [_ ?].
  - by injection Hstep as <-.
Qed.

(** X4. A connection that is not subscribed, because it never was, because
    it unsubscribed, or because [broadcast] dropped it after a failed
    [send], is sent nothing by the coordinator, whatever happens, until it
    subscribes again. *)
Theorem outsider_is_sent_nothing (w : Coordinator) (ws : conn)
    (tr : list event) (w' : Coordinator) :
  ws ∉ subscribers (session w) →
  Forall (λ e, e ≠ Subscribe ws) tr →
  run w tr = Some w' →
  (ws ∉ subscribers (session w'))
  ∧ sends_to ws (net w') = sends_to ws (net w).
Proof.
  revert w. induction tr as [|e tr IH]; intros w Hout Hall Hrun;
    simpl in Hrun.
  - by injection Hrun as <-.
  - inversion Hall as [|? ? He Hrest]; subst.
    destruct (step w e) as [w1|] eqn:Hstep; [| done].
    destruct (step_outsider w e w1 ws Hout He Hstep) as [Hout1 Hs1].
    destruct (IH w1 Hout1 Hrest Hrun) as [Hout' Hs']. split; congruence.
Qed.

(** An instance: socket 8 leaves during the first turn of [mid_turn]. *)
Lemma outsider_is_sent_nothing_witness :
  let w1 := mkCoordinator (fst (unsubscribe (session mid_turn) 8))
              (db mid_turn) (net mid_turn) (calls mid_turn) in
  step mid_turn (Unsubscribe 8) = Some w1
  ∧ ∃ w', run w1 [Next 0 2%Z; Next 0 3%Z; Next 0 4%Z] = Some w'
      ∧ sends_to 8 (net w') = [(session_info "s1" 0 false, true)]
      ∧ sends_to 7 (net w')
        = [(session_info "s1" 0 false, true);
           (assistant_message "hi" "s1", true);
           (result true (VStr "hi") (VNum 1) (VNum 20) VUndefined "s1",
            true)].
Proof.
  intros w1. split; [reflexivity |].
  assert (∃ w', run w1 [Next 0 2%Z; Next 0 3%Z; Next 0 4%Z] = Some w')
    as [w' Hrun] by (eexists; vm_compute; reflexivity).
  exists w'. split; [exact Hrun |].
  destruct (outsider_is_sent_nothing w1 8
              [Next 0 2%Z; Next 0 3%Z; Next 0 4%Z] w') as [_ Hs].
  - simpl. rewrite set_delete_spec. by intros [? _].
  - repeat constructor; discriminate.
  - exact Hrun.
  - split; [rewrite Hs; vm_compute; reflexivity |].
    vm_compute in Hrun. injection Hrun as <-. vm_compute. reflexivity.
Defined.

(** ** The rows of other sessions *)

Lemma update_session_rows rows tok now count key k :
  created_at <$> update_session rows tok now count key !! k
  = created_at <$> rows !! k
  ∧ (k ≠ key → update_session rows tok now count key !! k = rows !! k).
Proof.
  unfold update_session. destruct (rows !! key) as [r|] eqn:Hr; [| done].
  destruct (decide (k = key)) as [-> | Hne].
  - rewrite lookup_insert_eq, Hr. done.
  - by rewrite lookup_insert_ne.
Qed.

Lemma on_message_rows s rows sockets m now k :
  created_at <$> snd (fst (on_message s rows sockets m now)) !! k
  = created_at <$> rows !! k
  ∧ (k ≠ id s → snd (fst (on_message s rows sockets m now)) !! k = rows !! k).
Proof.
  destruct (is_init m) eqn:Hm.
  - destruct m as [st tok | | | |]; try discriminate. simpl in Hm.
    apply bool_decide_eq_true in Hm as ->.
    change (SystemMsg "init" tok) with (init_msg tok).
    rewrite on_message_init. simpl. apply update_session_rows.
  - by destruct (on_message_other s rows sockets m now Hm) as [_ ->].
Qed.

Lemma step_rows w e w' k :
  step w e = Some w' →
  id (session w') = id (session w)
  ∧ created_at <$> db w' !! k = created_at <$> db w !! k
  ∧ (k ≠ id (session w) → db w' !! k = db w !! k).
Proof.
  intros Hstep.
  destruct e as [c st | j | j now | | ws | ws | ws]; simpl in Hstep.
  - destruct (queryPromise (session w)); by injection Hstep as <-.
  - destruct (calls w !! j) as [[p c st | |] |]; try done.
    destruct (calls w !! p) as [[| |] |]; try done. by injection Hstep as <-.
  - assert (∀ m, id (fst (fst (on_message (session w) (db w) (net w) m now)))
                 = id (session w)
                 ∧ created_at
                     <$> snd (fst (on_message (session w) (db w) (net w) m now))
                         !! k
                   = created_at <$> db w !! k
                 ∧ (k ≠ id (session w) →
                    snd (fst (on_message (session w) (db w) (net w) m now)) !! k
                    = db w !! k)) as Hmsg.
    { intros m. split; [apply on_message_frame | apply on_message_rows]. }
    destruct (calls w !! j) as [[| c r [|m rest] [error|] |] |]; try done.
    + destruct (broadcastError_frame (session w) (net w) error)
        as ((Hid & _) & _).
      destruct (broadcastError _ _ _) as [s' net'].
      by injection Hstep as <-.
    + by injection Hstep as <-.
    + specialize (Hmsg m).
      destruct (on_message _ _ _ _ _) as [[s' db'] net'].
      by injection Hstep as <-.
    + specialize (Hmsg m).
      destruct (on_message _ _ _ _ _) as [[s' db'] net'].
      by injection Hstep as <-.
  - by injection Hstep as <-.
  - by injection Hstep as <-.
  - by injection Hstep as <-.
  - by injection Hstep as <-.
Qed.

(** X5. Whatever happens on a coordinator, its session id stays, the rows
    of all other sessions stay exactly as they are, no row appears or
    disappears, and the creation time of every row, its own included, is
    never overwritten. *)
Theorem coordinator_writes_its_own_row_only (w : Coordinator)
    (tr : list event) (w' : Coordinator) (k : string) :
  run w tr = Some w' →
  id (session w') = id (session w)
  ∧ created_at <$> db w' !! k = created_at <$> db w !! k
  ∧ (k ≠ id (session w) → db w' !! k = db w !! k).
Proof.
  revert w. induction tr as [|e tr IH]; intros w Hrun; simpl in Hrun.
  - by injection Hrun as <-.
  - destruct (step w e) as [w1|] eqn:Hstep; [| done].
    destruct (step_rows w e w1 k Hstep) as (Hid & Hc & Hk).
    destruct (IH w1 Hrun) as (Hid' & Hc' & Hk').
    split; [congruence |]. split; [congruence |].
    intros Hne. rewrite Hk' by congruence. by apply Hk.
Qed.

(** An instance: a whole turn of session "s1" next to a row of "s2". *)
Lemma coordinator_writes_its_own_row_only_witness :
  let w := mkCoordinator (mkSession "s1" None [] 0 None)
             {["s1" := mkRow None 5 5 0; "s2" := mkRow (Some "xyz") 1 9 4]}
             net0 [] in
  ∃ w', run w one_turn = Some w'
    ∧ db w' !! "s2" = Some (mkRow (Some "xyz") 1 9 4)
    ∧ db w' !! "s1" = Some (mkRow (Some "abc") 5 1 1).
Proof.
  intros w.
  assert (∃ w', run w one_turn = Some w') as [w' Hrun]
    by (eexists; vm_compute; reflexivity).
  exists w'. split; [exact Hrun |].
  destruct (coordinator_writes_its_own_row_only w one_turn w' "s2" Hrun)
    as (_ & _ & Hother).
  split.
  - rewrite Hother by discriminate. vm_compute. reflexivity.
  - vm_compute in Hrun. injection Hrun as <-. vm_compute. reflexivity.
Defined.

(** ** The message count *)

Lemma filter_snoc_length {A} (P : A → Prop) `{!∀ x, Decision (P x)}
    (l : list A) (x : A) :
  length (filter P (l ++ [x]))
  = length (filter P l) + (if decide (P x) then 1 else 0).
Proof.
  rewrite filter_app, length_app. f_equal.
  rewrite filter_cons, filter_nil. by destruct (decide (P x)).
Qed.

Lemma filter_insert_length {A} (P : A → Prop) `{!∀ x, Decision (P x)}
    (l : list A) : ∀ (k : nat) (c x : A),
  l !! k = Some c →
  length (filter P (<[k := x]> l)) + (if decide (P c) then 1 else 0)
  = length (filter P l) + (if decide (P x) then 1 else 0).
Proof.
  induction l as [|a l IH]; intros [|k] c x Hk; try done; simpl in *.
  - injection Hk as ->. rewrite !filter_cons.
    destruct (decide (P c)), (decide (P x)); simpl; lia.
  - specialize (IH k c x Hk). rewrite !filter_cons.
    destruct (decide (P a)); simpl; lia.
Qed.

Lemma step_count w e w' :
  e ≠ Reset → step w e = Some w' →
  messageCount (session w) = length (filter started (calls w)) →
  messageCount (session w') = length (filter started (calls w')).
Proof.
  intros Hne Hstep Hcount.
  destruct e as [c st | k | k now | | ws | ws | ws]; simpl in Hstep.
  - destruct (queryPromise (session w)); injection Hstep as <-; simpl;
      rewrite filter_snoc_length, Hcount;
      (rewrite decide_True by done) || (rewrite decide_False by done); lia.
  - destruct (calls w !! k) as [[p c st | |] |] eqn:Hk; try done.
    destruct (calls w !! p) as [[| |] |]; try done.
    injection Hstep as <-. simpl.
    pose proof (filter_insert_length started (calls w) k _
                  (Streaming c (resume_option
                     (with_messageCount (session w)
                        (S (messageCount (session w)))))
                     (fst st) (snd st)) Hk) as Hlen.
    rewrite decide_False in Hlen by done.
    rewrite decide_True in Hlen by done. lia.
  - assert (∀ x, started x → ∀ c, calls w !! k = Some c → started c →
              length (filter started (<[k := x]> (calls w)))
              = length (filter started (calls w))) as Hsame.
    { intros x Hx c Hk Hc.
      pose proof (filter_insert_length started (calls w) k c x Hk) as Hlen.
      rewrite !decide_True in Hlen by done. lia. }
    destruct (calls w !! k) as [[| c r [|m rest] [error|] |] |] eqn:Hk;
      try done.
    + destruct (broadcastError_frame (session w) (net w) error)
        as ((_ & _ & Hc & _) & _).
      destruct (broadcastError _ _ _) as [s' net'].
      injection Hstep as <-. simpl in *.
      erewrite Hsame; [congruence | done | done | done].
    + injection Hstep as <-. simpl.
      erewrite Hsame; [congruence | done | done | done].
    + destruct (on_message_frame (session w) (db w) (net w) m now)
        as (_ & _ & Hc & _).
      destruct (on_message _ _ _ _ _) as [[s' db'] net'].
      injection Hstep as <-. simpl in *.
      erewrite Hsame; [congruence | done | done | done].
    + destruct (on_message_frame (session w) (db w) (net w) m now)
        as (_ & _ & Hc & _).
      destruct (on_message _ _ _ _ _) as [[s' db'] net'].
      injection Hstep as <-. simpl in *.
      erewrite Hsame; [congruence | done | done | done].
  - done.
  - by injection Hstep as <-.
  - by injection Hstep as <-.
  - by injection Hstep as <-.
Qed.

(** X6. As long as [reset] is not used, the message count of a coordinator
    is the number of calls of [addUserMessage] that have got past their
    wait: a call that is still suspended on an earlier turn is not counted
    yet, and a failed turn is counted like any other. *)
Theorem messageCount_counts_started_calls (sid : string)
    (rows : gmap string Row) (sockets : Net) (now : Z) (tr : list event)
    (w : Coordinator) :
  Forall (λ e, e ≠ Reset) tr →
  run (fresh sid rows sockets now) tr = Some w →
  messageCount (session w) = length (filter started (calls w)).
Proof.
  intros Hall Hrun.
  assert (∀ tr w0 w, Forall (λ e, e ≠ Reset) tr → run w0 tr = Some w →
            messageCount (session w0) = length (filter started (calls w0)) →
            messageCount (session w) = length (filter started (calls w)))
    as Hgen.
  { clear. induction tr as [|e tr IH]; intros w0 w Hall Hrun Hc;
      simpl in Hrun.
    - by injection Hrun as <-.
    - inversion Hall as [|? ? He Hrest]; subst.
      destruct (step w0 e) as [w1|] eqn:Hstep; [| done].
      eapply IH; [done | done |]. by eapply step_count. }
  by eapply Hgen.
Qed.

(** An instance: three calls of which the last is still waiting. *)
Lemma messageCount_counts_started_calls_witness :
  ∃ w, run w0 [Submit "a" ([], Some "boom"); Next 0 1%Z;
               Submit "b" (ok_stream "abc" "hi");
               Submit "c" (ok_stream "abc" "ho")] = Some w
    ∧ length (calls w) = 3
    ∧ messageCount (session w) = 2
    ∧ messageCount (session w) = length (filter started (calls w)).
Proof.
  eexists. split; [vm_compute; reflexivity |].
  split; [vm_compute; reflexivity |]. split; [vm_compute; reflexivity |].
  apply (messageCount_counts_started_calls "s1" ∅ net0 0%Z
           [Submit "a" ([], Some "boom"); Next 0 1%Z;
            Submit "b" (ok_stream "abc" "hi");
            Submit "c" (ok_stream "abc" "ho")]).
  - repeat constructor; discriminate.
  - vm_compute. reflexivity.
Defined.

(** ** Continuing a conversation *)

Lemma drain_last_token pre tok post tpre t tpost s rows sockets :
  Forall (λ m, is_init m = false) post →
  length tpre = length pre →
  sdkSessionId (fst (fst (drain s rows sockets (pre ++ init_msg tok :: post)
                            (tpre ++ t :: tpost)))) = Some tok.
Proof.
  intros Hpost Hlen. rewrite drain_app by done.
  destruct (drain s rows sockets pre tpre) as [[s1 rows1] sockets1]. simpl.
  by destruct (drain_no_init post tpost (with_sdkSessionId s1 (Some tok))
                 (update_session rows1 (Some tok) t (messageCount s1) (id s1))
                 sockets1 Hpost) as [-> _].
Qed.

(** X7. After a turn whose last turn-start signal carried the token [tok],
    whether the turn ended well or threw, the next [addUserMessage] starts
    at once and invokes the engine with [resume] set to [tok]; only the
    empty token, which JavaScript takes for false, gives a fresh
    conversation. *)
Theorem next_turn_resumes_with_last_token (w : Coordinator)
    (content : string) (fin : option string) (tend : Z)
    (pre post : list sdk_message) (tok : string) (tpre tpost : list Z)
    (t : Z) (content2 : string) (stream2 : Stream) :
  queryPromise (session w) = None →
  Forall (λ m, is_init m = false) post →
  length tpre = length pre → length tpost = length post →
  ∃ w' w'',
    run w (Submit content (pre ++ init_msg tok :: post, fin)
             :: turn (length (calls w)) (tpre ++ t :: tpost) tend) = Some w'
    ∧ step w' (Submit content2 stream2) = Some w''
    ∧ calls w''
      = calls w
        ++ [Settled;
            Streaming content2
              (if bool_decide (tok = "") then None else Some tok)
              (fst stream2) (snd stream2)].
Proof.
  intros Hidle Hpost Hpre Hlen. unfold turn.
  rewrite run_turn; [| done | by rewrite !length_app; simpl; lia].
  cbv zeta. set (s1 := with_queryPromise _ _).
  pose proof (drain_last_token pre tok post tpre t tpost s1 (db w) (net w)
                Hpost Hpre) as Htok.
  destruct (drain s1 (db w) (net w) _ _) as [[s2 rows2] sockets2].
  simpl in Htok.
  assert (sdkSessionId
            (fst match fin with
                 | Some error => broadcastError s2 sockets2 error
                 | None => (s2, sockets2)
                 end) = Some tok) as Htok3.
  { destruct fin as [error|]; [| done].
    destruct (broadcastError_frame s2 sockets2 error) as ((_ & _ & _ & ->) & _).
    done. }
  destruct (match fin with
            | Some error => broadcastError s2 sockets2 error
            | None => (s2, sockets2)
            end) as [s3 sockets3]. simpl in Htok3.
  eexists _, _. split; [reflexivity |]. simpl.
  split; [reflexivity |]. simpl.
  unfold resume_option. simpl. rewrite Htok3.
  by rewrite <- app_assoc.
Qed.

(** An instance: the first turn captures "abc" and then throws. *)
Lemma next_turn_resumes_with_last_token_witness :
  ∃ w' w'',
    run w0 (Submit "hello" ([] ++ init_msg "abc" :: [], Some "boom")
              :: turn 0 ([] ++ 1%Z :: []) 2%Z) = Some w'
    ∧ step w' (Submit "again" ([], None)) = Some w''
    ∧ calls w'' = [Settled; Streaming "again" (Some "abc") [] None].
Proof.
  apply (next_turn_resumes_with_last_token w0 "hello" (Some "boom") 2%Z
           [] [] "abc" [] [] 1%Z "again" ([], None)).
  - reflexivity.
  - constructor.
  - reflexivity.
  - reflexivity.
Defined.

(** ** What a new subscriber is told *)

(** X8. When calls are made one waiter at a time and [reset] is not used
    during a turn, the [session_info] payload that [subscribe] sends to the
    new connection tells the truth: [isActive] is true exactly when an
    engine invocation is in flight, and [messageCount] is the current
    count. *)
Theorem session_info_tells_whether_a_turn_runs (sid : string)
    (rows : gmap string Row) (sockets : Net) (now : Z) (tr : list event)
    (w : Coordinator) (ws : conn) :
  run (fresh sid rows sockets now) tr = Some w →
  disciplined (fresh sid rows sockets now) tr = true →
  ∃ w', step w (Subscribe ws) = Some w'
    ∧ attempts (net w')
      = attempts (net w)
        ++ [(ws,
             session_info (id (session w)) (messageCount (session w))
                          (bool_decide (in_flight w ≠ [])),
             accepts (net w) ws)].
Proof.
  intros Hrun Hd.
  pose proof (serial_run tr _ _ (serial_fresh sid rows sockets now) Hd Hrun)
    as Hs.
  eexists. split; [reflexivity |]. simpl. do 5 f_equal.
  apply bool_decide_ext. split.
  - intros Hq. destruct (queryPromise (session w)) as [k|] eqn:Hk; [| done].
    apply (serial_promise _ _ Hs), elem_of_in_flight in Hk.
    intros Hnil. rewrite Hnil in Hk. by apply not_elem_of_nil in Hk.
  - intros Hfl Hq. destruct (in_flight w) as [|k l] eqn:Hk; [done |].
    assert (k ∈ in_flight w) as Hin by (rewrite Hk; by left).
    apply elem_of_in_flight, (serial_owner _ _ Hs) in Hin. congruence.
Qed.

(** An instance: a connection joins while the second of two calls waits
    for the first turn. *)
Lemma session_info_tells_whether_a_turn_runs_witness :
  ∃ w w',
    run w0 [Submit "a" (ok_stream "abc" "hi");
            Submit "b" (ok_stream "abc" "yo")] = Some w
    ∧ step w (Subscribe 7) = Some w'
    ∧ in_flight w = [0]
    ∧ attempts (net w') = [(7, session_info "s1" 1 true, true)].
Proof.
  assert (∃ w, run w0 [Submit "a" (ok_stream "abc" "hi");
                       Submit "b" (ok_stream "abc" "yo")] = Some w)
    as [w Hrun] by (eexists; vm_compute; reflexivity).
  destruct (session_info_tells_whether_a_turn_runs "s1" ∅ net0 0%Z _ w 7 Hrun)
    as (w' & Hstep & Hsent); [vm_compute; reflexivity |].
  exists w, w'. split; [exact Hrun |]. split; [exact Hstep |].
  vm_compute in Hrun. injection Hrun as <-.
  split; [vm_compute; reflexivity |]. rewrite Hsent. vm_compute. reflexivity.
Defined.

(** ** The registry *)

(** Replacing an object by one with the same id and a duplicate-free
    subscriber set keeps the server well formed. *)
Lemma server_wf_update w r s s' tm :
  server_wf w → heap w !! r = Some s → id s' = id s →
  NoDup (subscribers s') →
  (∀ t, t ∈ tm → t ∈ timers w
        ∨ ∃ sid, sessions w !! sid = Some r ∧ t = mkTimer (due t) r sid) →
  ∀ reg sn, (∀ sid r0, reg !! sid = Some r0 → sessions w !! sid = Some r0) →
  server_wf (mkServer (<[r := s']> (heap w)) reg (sdb w) sn tm).
Proof.
  intros [Hreg Hrows Htm Hsets] Hr Hid Hnd Htimers reg sn Hsub.
  assert (r < length (heap w)) as Hlt by (by eapply lookup_lt_Some).
  assert (∀ r0 s0, <[r := s']> (heap w) !! r0 = Some s0 →
            ∃ s1, heap w !! r0 = Some s1 ∧ id s1 = id s0
                  ∧ (r0 ≠ r → s0 = s1) ∧ (r0 = r → s0 = s')) as Hlook.
  { intros r0 s0. destruct (decide (r0 = r)) as [-> | Hne].
    - rewrite list_lookup_insert_eq by done. intros [= <-].
      exists s. by repeat split.
    - rewrite list_lookup_insert_ne by done. intros H0. exists s0.
      by repeat split. }
  assert (∀ r0 s1, heap w !! r0 = Some s1 →
            ∃ s0, <[r := s']> (heap w) !! r0 = Some s0 ∧ id s0 = id s1)
    as Hback.
  { intros r0 s1 H1. destruct (decide (r0 = r)) as [-> | Hne].
    - rewrite list_lookup_insert_eq by done. exists s'. split; [done |].
      congruence.
    - rewrite list_lookup_insert_ne by done. eauto. }
  constructor; simpl.
  - intros sid r0 H0%Hsub. destruct (Hreg sid r0 H0) as (s1 & H1 & <-).
    by apply Hback.
  - intros r0 s0 H0. destruct (Hlook r0 s0 H0) as (s1 & H1 & <- & _).
    by eapply Hrows.
  - intros t Ht. destruct (Htimers t Ht) as [Hold | (sid & Hsid & Ht')].
    + destruct (Htm t Hold) as (s1 & H1 & <-). by apply Hback.
    + destruct (Hreg sid r Hsid) as (s1 & H1 & <-).
      rewrite Ht'. simpl. rewrite list_lookup_insert_eq by done.
      exists s'. split; [done |]. congruence.
  - intros r0 s0 H0. destruct (Hlook r0 s0 H0) as (s1 & H1 & _ & Hne & Heq).
    destruct (decide (r0 = r)) as [-> | Hne']; [by rewrite (Heq eq_refl) |].
    rewrite (Hne Hne'). by eapply Hsets.
Qed.

Lemma server_wf_open w ws sid now :
  server_wf w → server_wf (open w ws sid now).
Proof.
  intros Hwf. unfold open.
  destruct (sessions w !! sid) as [r|] eqn:Hsid.
  - destruct (heap w !! r) as [s|] eqn:Hr; [| done]. simpl.
    eapply server_wf_update; eauto.
    simpl. apply set_add_NoDup. by eapply wf_sets.
  - simpl. destruct Hwf as [Hreg Hrows Htm Hsets]. constructor; simpl.
    + intros sid' r0. destruct (decide (sid' = sid)) as [-> | Hne].
      * rewrite lookup_insert_eq. intros [= <-].
        rewrite lookup_app_r, Nat.sub_diag by lia. simpl. eauto.
      * rewrite lookup_insert_ne by done. intros H0.
        destruct (Hreg sid' r0 H0) as (s1 & H1 & Hid).
        exists s1. split; [by apply lookup_app_l_Some | done].
    + assert (∀ k, is_Some (sdb w !! k) →
                is_Some (insert_or_ignore (sdb w) sid
                           (mkRow None now now 0) !! k)) as Hmono.
      { intros k Hk. unfold insert_or_ignore.
        destruct (sdb w !! sid) eqn:Hrow; [done |].
        destruct (decide (k = sid)) as [-> | Hne].
        - by rewrite lookup_insert_eq.
        - by rewrite lookup_insert_ne. }
      intros r0 s0 [[_ H0] | [_ <-]]%lookup_snoc_Some.
      * apply Hmono. by eapply Hrows.
      * simpl. unfold insert_or_ignore.
        destruct (sdb w !! sid) eqn:Hrow; [by rewrite Hrow |].
        by rewrite lookup_insert_eq.
    + intros t Ht. destruct (Htm t Ht) as (s1 & H1 & Hid).
      exists s1. split; [by apply lookup_app_l_Some | done].
    + intros r0 s0 [[_ H0] | [_ <-]]%lookup_snoc_Some.
      * by eapply Hsets.
      * simpl. apply NoDup_singleton.
Qed.

Lemma server_wf_close w ws sid now :
  server_wf w → server_wf (close w ws sid now).
Proof.
  intros Hwf. unfold close.
  destruct (sessions w !! sid) as [r|] eqn:Hsid; [| done].
  destruct (heap w !! r) as [s|] eqn:Hr; [| done].
  eapply server_wf_update; eauto.
  - simpl. apply set_delete_NoDup. by eapply wf_sets.
  - intros t Ht. destruct (hasSubscribers _); [by left |].
    apply elem_of_app in Ht as [Ht | ->%list_elem_of_singleton];
      [by left | right]. eauto.
Qed.

Lemma server_wf_fire w n now w' :
  server_wf w → fire w n now = Some w' → server_wf w'.
Proof.
  intros Hwf Hfire. unfold fire in Hfire.
  destruct (timers w !! n) as [t|] eqn:Ht; [| done].
  case_bool_decide; [| done].
  destruct (heap w !! timer_session t) as [s|] eqn:Hs; [| done].
  destruct (hasSubscribers s).
  - injection Hfire as <-. destruct Hwf as [Hreg Hrows Htm Hsets].
    constructor; simpl; try done.
    intros t' Ht'%list_elem_of_delete_inv. by apply Htm.
  - injection Hfire as <-. eapply server_wf_update; eauto.
    + simpl. apply NoDup_nil_2.
    + intros t' Ht'%list_elem_of_delete_inv. by left.
    + intros sid r0 [_ H0]%lookup_delete_Some. done.
Qed.

Lemma server_wf_run tr : ∀ w w',
  server_wf w → server_run w tr = Some w' → server_wf w'.
Proof.
  induction tr as [|e tr IH]; intros w w' Hwf Hrun; simpl in Hrun.
  - by injection Hrun as <-.
  - destruct (server_step w e) as [w1|] eqn:Hstep; [| done].
    eapply IH; [| done]. destruct e as [ws sid now | ws sid now | n now];
      simpl in Hstep.
    + injection Hstep as <-. by apply server_wf_open.
    + injection Hstep as <-. by apply server_wf_close.
    + by eapply server_wf_fire.
Qed.

Lemma server_wf_empty : server_wf server0.
Proof.
  constructor; simpl; try done.
  intros t Ht. by apply not_elem_of_nil in Ht.
Qed.

(** X9. Every state the server reaches by connections opening and closing
    and timers firing is well formed: a registered coordinator is an
    object of the heap and holds the id it is registered under, so two
    session ids never share a coordinator; every coordinator ever
    constructed has a row; and the object and id that a pending timer
    captured belong together. Hence a timer that is due always runs, and
    [open] and [close] always find the object that the registry names. *)
Theorem server_stays_well_formed (tr : list server_event) (w : Server) :
  server_run server0 tr = Some w →
  server_wf w
  ∧ (∀ sid1 sid2 r,
       sessions w !! sid1 = Some r → sessions w !! sid2 = Some r →
       sid1 = sid2)
  ∧ (∀ sid, is_Some (sessions w !! sid) → is_Some (resolve w sid))
  ∧ (∀ n t now,
       timers w !! n = Some t → (due t ≤ now)%Z → is_Some (fire w n now)).
Proof.
  intros Hrun.
  pose proof (server_wf_run tr _ _ server_wf_empty Hrun) as Hwf.
  split; [done |]. split; [| split].
  - intros sid1 sid2 r H1 H2.
    destruct (wf_registry _ Hwf sid1 r H1) as (s1 & Hs1 & <-).
    destruct (wf_registry _ Hwf sid2 r H2) as (s2 & Hs2 & <-). congruence.
  - intros sid [r Hr]. unfold resolve. rewrite Hr. simpl.
    destruct (wf_registry _ Hwf sid r Hr) as (s & Hs & _). by rewrite Hs.
  - intros n t now Ht Hdue. unfold fire. rewrite Ht.
    rewrite bool_decide_eq_true_2 by done.
    destruct (wf_timers _ Hwf t) as (s & Hs & _).
    { apply list_elem_of_lookup. eauto. }
    rewrite Hs. by destruct (hasSubscribers s).
Qed.

(** An instance: the server after the trace [stale_timer] without its last
    event; its pending timer is due at 80 s. *)
Lemma server_stays_well_formed_witness :
  ∃ w, server_run server0 (take 6 stale_timer) = Some w
    ∧ server_wf w
    ∧ is_Some (fire w 0 80000).
Proof.
  assert (∃ w, server_run server0 (take 6 stale_timer) = Some w)
    as [w Hrun] by (eexists; vm_compute; reflexivity).
  destruct (server_stays_well_formed (take 6 stale_timer) w Hrun)
    as (Hwf & _ & _ & Hfire).
  exists w. split; [exact Hrun |]. split; [exact Hwf |].
  apply (Hfire 0 (mkTimer 80000 0 "s1")).
  - vm_compute in Hrun. injection Hrun as <-. vm_compute. reflexivity.
  - simpl. lia.
Defined.

(** X10. The callback of a timer looks at the [session] object it captured
    but deletes from the registry by session id. When it fires for an
    object without subscribers while another coordinator is registered
    under that id, it is that other coordinator which loses its registry
    entry; the object itself, subscribers included, is left as it is. *)
Theorem late_timer_unregisters_newer_coordinator (w : Server) (n : nat)
    (now : Z) (t : Timer) (s : Session) (r' : nat) (s' : Session) :
  timers w !! n = Some t → (due t ≤ now)%Z →
  heap w !! timer_session t = Some s → hasSubscribers s = false →
  sessions w !! timer_sessionId t = Some r' → r' ≠ timer_session t →
  heap w !! r' = Some s' →
  ∃ w', fire w n now = Some w'
    ∧ sessions w' !! timer_sessionId t = None
    ∧ resolve w' (timer_sessionId t) = None
    ∧ heap w' !! r' = Some s'.
Proof.
  intros Ht Hdue Hs Hno Hreg Hne Hs'. unfold fire.
  rewrite Ht, Hs, Hno. rewrite bool_decide_eq_true_2 by done. simpl.
  eexists. split; [reflexivity |]. simpl.
  rewrite lookup_delete_eq. split; [done |]. split.
  - unfold resolve. simpl. by rewrite lookup_delete_eq.
  - by rewrite list_lookup_insert_ne.
Qed.

(** An instance: the state before the last event of [stale_timer]. The
    coordinator of socket 3 is object 1; the timer captured object 0. *)
Lemma late_timer_unregisters_newer_coordinator_witness :
  ∃ w w', server_run server0 (take 6 stale_timer) = Some w
    ∧ resolve w "s1" = Some (mkSession "s1" None [3] 0 None)
    ∧ fire w 0 80000 = Some w'
    ∧ resolve w' "s1" = None
    ∧ heap w' !! 1 = Some (mkSession "s1" None [3] 0 None).
Proof.
  assert (∃ w, server_run server0 (take 6 stale_timer) = Some w)
    as [w Hrun] by (eexists; vm_compute; reflexivity).
  vm_compute in Hrun. injection Hrun as <-.
  match goal with |- ∃ w w', _ = Some w ∧ _ =>
    eexists; eexists; split; [vm_compute; reflexivity |]
  end.
  split; [vm_compute; reflexivity |].
  match goal with |- fire ?W _ _ = _ ∧ _ =>
    destruct (late_timer_unregisters_newer_coordinator W 0 80000%Z
                (mkTimer 80000 0 "s1") (mkSession "s1" None [] 0 None) 1
                (mkSession "s1" None [3] 0 None))
      as (w' & Hfire & _ & Hres & Hheap)
  end.
  1-7: first [vm_compute; reflexivity | simpl; lia | discriminate].
  vm_compute in Hfire. injection Hfire as <-.
  split; [vm_compute; reflexivity |]. split; [exact Hres | exact Hheap].
Defined.

(** X11. [open] gets or creates. In a well-formed server the connection
    ends up subscribed to the coordinator registered under its session id:
    the one already there, with its fields and other subscribers kept, or
    a new blank one when none was registered, in which case exactly one
    object is added to the heap. The session has a row afterwards, and the
    coordinators registered under other ids are untouched. *)
Theorem open_gets_or_creates (w : Server) (ws : conn) (sid : string)
    (now : Z) :
  server_wf w →
  (∃ s', resolve (open w ws sid now) sid = Some s'
     ∧ id s' = sid ∧ ws ∈ subscribers s'
     ∧ (∀ s, resolve w sid = Some s →
          same_core s s' ∧ subscribers s' = set_add ws (subscribers s))
     ∧ (resolve w sid = None → s' = mkSession sid None [ws] 0 None))
  ∧ length (heap (open w ws sid now))
    = length (heap w)
      + match sessions w !! sid with Some _ => 0 | None => 1 end
  ∧ is_Some (sdb (open w ws sid now) !! sid)
  ∧ (∀ sid', sid' ≠ sid →
       resolve (open w ws sid now) sid' = resolve w sid').
Proof.
  intros Hwf. unfold open, resolve.
  destruct (sessions w !! sid) as [r|] eqn:Hsid; simpl.
  - destruct (wf_registry _ Hwf sid r Hsid) as (s & Hs & Hid).
    assert (r < length (heap w)) as Hlt by (by eapply lookup_lt_Some).
    rewrite Hs. simpl. rewrite Hsid. simpl.
    rewrite list_lookup_insert_eq by done. split; [| split; [| split]].
    + eexists. split; [reflexivity |]. simpl. split; [done |]. split.
      * unfold set_add. case_bool_decide; [done |].
        apply elem_of_app. right. by apply list_elem_of_singleton.
      * split; [| done]. intros s0 [= <-]. by repeat split.
    + rewrite length_insert. lia.
    + rewrite <- Hid. by eapply wf_rows.
    + intros sid' Hne. destruct (sessions w !! sid') as [r0|] eqn:H0; [| done].
      simpl. rewrite list_lookup_insert_ne; [done |]. intros <-.
      destruct (wf_registry _ Hwf sid' r H0) as (s0 & Hs0 & Hid0).
      congruence.
  - rewrite lookup_insert_eq. simpl.
    rewrite lookup_app_r, Nat.sub_diag by lia. simpl.
    split; [| split; [| split]].
    + eexists. split; [reflexivity |]. simpl. split; [done |].
      split; [by apply list_elem_of_singleton |]. split; [done |]. done.
    + rewrite length_app. simpl. lia.
    + unfold insert_or_ignore. destruct (sdb w !! sid) eqn:Hrow.
      * by rewrite Hrow.
      * by rewrite lookup_insert_eq.
    + intros sid' Hne. rewrite lookup_insert_ne by done.
      destruct (sessions w !! sid') as [r0|] eqn:H0; [| done]. simpl.
      destruct (wf_registry _ Hwf sid' r0 H0) as (s0 & Hs0 & _).
      by rewrite (lookup_app_l_Some _ _ _ _ Hs0).
Qed.

(** An instance: a second connection opens session "s1" on [idle_server]. *)
Lemma open_gets_or_creates_witness :
  resolve (open idle_server 2 "s1" 100) "s1"
  = Some (mkSession "s1" None [2] 0 None)
  ∧ length (heap (open idle_server 2 "s1" 100)) = 1
  ∧ length (heap (open idle_server 2 "s9" 100)) = 2.
Proof.
  assert (server_wf idle_server) as Hwf.
  { apply (server_wf_run [Open 1 "s1" 0%Z; Close 1 "s1" 0%Z] server0);
      [apply server_wf_empty | vm_compute; reflexivity]. }
  destruct (open_gets_or_creates idle_server 2 "s1" 100%Z Hwf)
    as ((s' & Hres & _ & _ & Hold & _) & Hlen & _).
  destruct (open_gets_or_creates idle_server 2 "s9" 100%Z Hwf)
    as (_ & Hlen9 & _).
  split; [vm_compute; reflexivity |]. split; [exact Hlen | exact Hlen9].
Defined.

(** ** The options that reach the engine *)

Lemma spread_lookup (a b : gmap string AIClient.option_value) k :
  AIClient.spread a b !! k
  = match b !! k with Some v => Some v | None => a !! k end.
Proof.
  unfold AIClient.spread. rewrite lookup_union.
  by destruct (b !! k), (a !! k).
Qed.

(** X12. The options handed to [query] are layered: an option of the call
    wins over an option given to the constructor, which wins over the
    built-in default. For the client of the server, constructed without
    options, and the options a session passes, this means: [resume] is the
    stored token or absent, and every other option is the built-in one,
    for instance [maxTurns] 100 and the model ["sonnet"]. *)
Theorem query_options_are_layered (workspace prompt : string)
    (ctor call : gmap string AIClient.option_value) (k : string) :
  AIClient.mergedOptions (AIClient.defaultOptions workspace prompt ctor) call
    !! k
  = match call !! k with
    | Some v => Some v
    | None =>
        match ctor !! k with
        | Some v => Some v
        | None => AIClient.builtin workspace prompt !! k
        end
    end
  ∧ ∀ resume,
      let merged :=
        AIClient.mergedOptions (AIClient.defaultOptions workspace prompt ∅)
                               (AIClient.session_options resume) in
      merged !! "resume" = AIClient.OStr <$> resume
      ∧ merged !! "maxTurns" = Some (AIClient.ONum 100)
      ∧ merged !! "model" = Some (AIClient.OStr "sonnet")
      ∧ (k ≠ "resume" → merged !! k = AIClient.builtin workspace prompt !! k).
Proof.
  split.
  - unfold AIClient.mergedOptions, AIClient.defaultOptions.
    by rewrite !spread_lookup.
  - intros resume merged. subst merged.
    unfold AIClient.mergedOptions, AIClient.defaultOptions.
    repeat split.
    + destruct resume; by vm_compute.
    + destruct resume; by vm_compute.
    + destruct resume; by vm_compute.
    + intros Hne. rewrite !spread_lookup. rewrite lookup_empty.
      destruct resume as [tok|]; simpl.
      * by rewrite lookup_singleton_ne.
      * by rewrite lookup_empty.
Qed.

(** ** One-shot queries *)

Lemma querySingle_loop_app pre : ∀ rest messages totalCost duration,
  AIClient.querySingle_loop (pre ++ rest) messages totalCost duration
  = let '(messages', totalCost', duration') :=
      AIClient.querySingle_loop pre messages totalCost duration in
    AIClient.querySingle_loop rest messages' totalCost' duration'.
Proof.
  induction pre as [|m pre IH]; intros rest messages totalCost duration;
    [done |].
  simpl. destruct m as [| | | st r c d |]; try apply IH.
  case_bool_decide; apply IH.
Qed.

Lemma querySingle_loop_no_success msgs : ∀ messages totalCost duration,
  Forall (λ m, AIClient.is_success m = false) msgs →
  AIClient.querySingle_loop msgs messages totalCost duration
  = (messages ++ msgs, totalCost, duration).
Proof.
  induction msgs as [|m msgs IH]; intros messages totalCost duration Hall.
  - by rewrite app_nil_r.
  - inversion Hall as [|? ? Hm Hrest]; subst. simpl.
    destruct m as [| | | st r c d |]; simpl in Hm;
      rewrite ?Hm, IH by done; by rewrite <- app_assoc.
Qed.

(** X13. [querySingle] returns all messages of the stream in order. The
    cost and the duration it reports are those of the last result message
    with subtype ["success"]; when the stream has none, for instance
    because the run ended with an error result, it reports 0 for both
    whatever that result carried. When the stream throws, the call throws
    and the messages collected so far are lost. *)
Theorem querySingle_reports_last_success :
  (∀ pre res cost dur post,
     Forall (λ m, AIClient.is_success m = false) post →
     AIClient.querySingle
       (pre ++ ResultMsg "success" res cost dur :: post, None)
     = inl (pre ++ ResultMsg "success" res cost dur :: post, cost, dur))
  ∧ (∀ msgs,
       Forall (λ m, AIClient.is_success m = false) msgs →
       AIClient.querySingle (msgs, None) = inl (msgs, VNum 0, VNum 0))
  ∧ (∀ msgs error, AIClient.querySingle (msgs, Some error) = inr error).
Proof.
  split; [| split].
  - intros pre res cost dur post Hpost. unfold AIClient.querySingle. simpl.
    rewrite querySingle_loop_app.
    destruct (AIClient.querySingle_loop pre [] (VNum 0) (VNum 0))
      as [[messages c0] d0] eqn:Hpre.
    assert (messages = pre) as ->.
    { clear -Hpre.
      assert (∀ l acc c d,
                fst (fst (AIClient.querySingle_loop l acc c d)) = acc ++ l)
        as Hall.
      { induction l as [|m l IH]; intros acc c d; simpl.
        - by rewrite app_nil_r.
        - destruct m as [| | | st r c' d' |]; try case_bool_decide;
            rewrite IH; by rewrite <- app_assoc. }
      specialize (Hall pre [] (VNum 0) (VNum 0)). by rewrite Hpre in Hall. }
    simpl. rewrite querySingle_loop_no_success by done.
    by rewrite <- app_assoc.
  - intros msgs Hall. unfold AIClient.querySingle. simpl.
    by rewrite querySingle_loop_no_success.
  - done.
Qed.

(** An instance: a run that ends with an error result that has a cost. *)
Lemma querySingle_reports_last_success_witness :
  AIClient.querySingle
    ([init_msg "abc"; ResultMsg "error_max_turns" VUndefined (VNum 7) (VNum 9)],
     None)
  = inl ([init_msg "abc";
          ResultMsg "error_max_turns" VUndefined (VNum 7) (VNum 9)],
         VNum 0, VNum 0)
  ∧ AIClient.querySingle
      ([] ++ ResultMsg "success" (VStr "ok") (VNum 7) (VNum 9) :: [], None)
    = inl ([ResultMsg "success" (VStr "ok") (VNum 7) (VNum 9)],
           VNum 7, VNum 9).
Proof.
  destruct querySingle_reports_last_success as (Hlast & Hnone & _).
  split.
  - apply Hnone. repeat constructor.
  - apply (Hlast [] (VStr "ok") (VNum 7) (VNum 9) []). constructor.
Defined.

(** ** [SessionManager] *)

Lemma SessionManager_sync_create m id c a rc ra m' s :
  SessionManager.in_sync m →
  SessionManager.createSession m id c a rc ra = (m', Some s) →
  SessionManager.in_sync m'.
Proof.
  intros Hsync Hcreate. unfold SessionManager.createSession in Hcreate.
  unfold SessionManager.insert_row in Hcreate.
  destruct (SessionManager.db m !! id) eqn:Hrow; [done |].
  injection Hcreate as <- <-. intros id' s'. simpl.
  destruct (decide (id' = id)) as [-> | Hne].
  - rewrite !lookup_insert_eq. intros [= <-]. simpl. eauto.
  - rewrite !lookup_insert_ne by done. apply Hsync.
Qed.

Lemma SessionManager_sync_update m id tok a ra :
  SessionManager.in_sync m →
  SessionManager.in_sync (SessionManager.updateSession m id tok a ra).
Proof.
  intros Hsync. unfold SessionManager.updateSession.
  destruct (SessionManager.sessions m !! id) as [session|] eqn:Hs; [| done].
  destruct (Hsync id session Hs) as (Hid & r & Hr & _).
  intros id' s'. simpl. destruct (decide (id' = id)) as [-> | Hne].
  - rewrite lookup_insert_eq. intros [= <-]. simpl. split; [done |].
    erewrite update_session_lookup by done. eauto.
  - rewrite lookup_insert_ne by done. intros Hs'.
    rewrite (proj2 (update_session_rows _ _ _ _ _ _)) by done.
    by apply Hsync.
Qed.

Lemma SessionManager_sync_delete m id :
  SessionManager.in_sync m →
  SessionManager.in_sync (SessionManager.deleteSession m id).
Proof.
  intros Hsync id' s'. simpl.
  intros [Hne Hs']%lookup_delete_Some.
  rewrite lookup_delete_ne by done. by apply Hsync.
Qed.

Lemma SessionManager_sync_cleanup m now maxAge :
  SessionManager.in_sync m →
  SessionManager.in_sync (SessionManager.cleanup m now maxAge).
Proof.
  intros Hsync. unfold SessionManager.cleanup.
  apply (map_fold_weak_ind (λ acc _, SessionManager.in_sync acc)); [done |].
  intros id s m0 acc _ Hacc. case_bool_decide; [| done].
  by apply SessionManager_sync_delete.
Qed.

Lemma SessionManager_sync_run ops : ∀ m0 m,
  SessionManager.in_sync m0 →
  SessionManager.run m0 ops = Some m → SessionManager.in_sync m.
Proof.
  induction ops as [|o ops IH]; intros m0 m Hsync Hrun; simpl in Hrun.
  - by injection Hrun as <-.
  - destruct (SessionManager.apply m0 o) as [m1|] eqn:Happly; [| done].
    eapply IH; [| done].
    destruct o as [id c a rc ra | id tok a ra | id | now maxAge];
      simpl in Happly.
    + destruct (SessionManager.createSession m0 id c a rc ra)
        as [m' [s|]] eqn:Hc; [| done].
      injection Happly as <-. by eapply SessionManager_sync_create.
    + injection Happly as <-. by apply SessionManager_sync_update.
    + injection Happly as <-. by apply SessionManager_sync_delete.
    + injection Happly as <-. by apply SessionManager_sync_cleanup.
Qed.

Lemma SessionManager_sync_new rows :
  SessionManager.in_sync (SessionManager.new rows).
Proof. intros id s Hs. simpl in Hs. by rewrite lookup_empty in Hs. Qed.

(** X14. As long as no call of [createSession] threw, the map and the
    table of a session manager agree: every session of the map is filed
    under its own id and has a row that holds the same token and the same
    message count, after any sequence of [createSession], [updateSession],
    [deleteSession] and [cleanup], whatever rows the database file held at
    the start. *)
Theorem SessionManager_map_and_table_agree (rows : gmap string Row)
    (ops : list SessionManager.op) (m : SessionManager.t) :
  SessionManager.run (SessionManager.new rows) ops = Some m →
  SessionManager.in_sync m.
Proof.
  intros Hrun. eapply SessionManager_sync_run; [| exact Hrun].
  apply SessionManager_sync_new.
Qed.

(** An instance: two sessions, two updates of the first, a cleanup that
    removes the second. *)
Lemma SessionManager_map_and_table_agree_witness :
  ∃ m, SessionManager.run (SessionManager.new ∅)
         [SessionManager.Create "a" 0 0 0 0;
          SessionManager.Create "b" 1 1 1 1;
          SessionManager.Update "a" "tok" 50 50;
          SessionManager.Update "a" "tok2" 60 60;
          SessionManager.Cleanup 100 50]%Z = Some m
    ∧ SessionManager.in_sync m
    ∧ SessionManager.getSession m "a"
      = Some (SessionManager.mkSessionData "a" (Some "tok2") 0 60 2)
    ∧ SessionManager.db m !! "a" = Some (mkRow (Some "tok2") 0 60 2)
    ∧ SessionManager.getSession m "b" = None
    ∧ SessionManager.db m !! "b" = None.
Proof.
  eexists. split; [vm_compute; reflexivity |]. split.
  - apply (SessionManager_map_and_table_agree ∅
             [SessionManager.Create "a" 0 0 0 0;
              SessionManager.Create "b" 1 1 1 1;
              SessionManager.Update "a" "tok" 50 50;
              SessionManager.Update "a" "tok2" 60 60;
              SessionManager.Cleanup 100 50]%Z).
    vm_compute. reflexivity.
  - repeat split; vm_compute; reflexivity.
Defined.

(** X15. [createSession] for an id that is live in a manager whose map and
    table agree throws: the [INSERT] violates the primary key. By then the
    map entry has been replaced by a zeroed record, so [getSession] now
    reports no token and count 0, while the table is what it was and the
    row still holds the old token and count. *)
Theorem createSession_twice_throws_and_zeroes (m : SessionManager.t)
    (id : string) (s : SessionManager.SessionData)
    (created active row_created row_active : Z) :
  SessionManager.in_sync m →
  SessionManager.sessions m !! id = Some s →
  let res := SessionManager.createSession m id created active row_created
               row_active in
  snd res = None
  ∧ SessionManager.getSession (fst res) id
    = Some (SessionManager.mkSessionData id None created active 0)
  ∧ SessionManager.db (fst res) = SessionManager.db m
  ∧ ∃ r, SessionManager.db (fst res) !! id = Some r
      ∧ session_id r = SessionManager.sessionId s
      ∧ message_count r = SessionManager.messageCount s.
Proof.
  intros Hsync Hs. destruct (Hsync id s Hs) as (_ & r & Hr & Htok & Hcount).
  unfold SessionManager.createSession, SessionManager.insert_row.
  rewrite Hr. simpl. unfold SessionManager.getSession. simpl.
  rewrite lookup_insert_eq. repeat split. eauto.
Qed.

(** An instance: session "a" is created, updated, and created again. *)
Lemma createSession_twice_throws_and_zeroes_witness :
  ∃ m, SessionManager.run (SessionManager.new ∅)
         [SessionManager.Create "a" 0 0 0 0;
          SessionManager.Update "a" "tok" 50 50]%Z = Some m
    ∧ snd (SessionManager.createSession m "a" 70 70 70 70) = None
    ∧ SessionManager.getSession
        (fst (SessionManager.createSession m "a" 70 70 70 70)) "a"
      = Some (SessionManager.mkSessionData "a" None 70 70 0)
    ∧ SessionManager.db
        (fst (SessionManager.createSession m "a" 70 70 70 70)) !! "a"
      = Some (mkRow (Some "tok") 0 50 1).
Proof.
  assert (∃ m, SessionManager.run (SessionManager.new ∅)
                 [SessionManager.Create "a" 0 0 0 0;
                  SessionManager.Update "a" "tok" 50 50]%Z = Some m)
    as [m Hrun] by (eexists; vm_compute; reflexivity).
  exists m. split; [exact Hrun |].
  destruct (createSession_twice_throws_and_zeroes m "a"
              (SessionManager.mkSessionData "a" (Some "tok") 0 50 1)
              70 70 70 70) as (Hnone & Hget & Hdb & _).
  - eapply SessionManager_sync_run; [| exact Hrun].
    apply SessionManager_sync_new.
  - vm_compute in Hrun. injection Hrun as <-. vm_compute. reflexivity.
  - split; [exact Hnone |]. split; [exact Hget |]. rewrite Hdb.
    vm_compute in Hrun. injection Hrun as <-. vm_compute. reflexivity.
Defined.

(** X16. [cleanup(maxAge)] at time [now] removes, from the map and from
    the table, exactly the sessions of the map that were last active
    before [now - maxAge]; a session last active at the cutoff or later is
    kept unchanged. A row without a session in the map, such as one left
    in the database by an earlier process, is never removed. *)
Theorem SessionManager_cleanup_removes_the_expired (m : SessionManager.t)
    (now maxAge : Z) (id : string) :
  let m' := SessionManager.cleanup m now maxAge in
  let expired (s : SessionManager.SessionData) :=
    bool_decide (SessionManager.lastActiveAt s < now - maxAge)%Z in
  SessionManager.sessions m' !! id
  = match SessionManager.sessions m !! id with
    | Some s => if expired s then None else Some s
    | None => None
    end
  ∧ SessionManager.db m' !! id
    = match SessionManager.sessions m !! id with
      | Some s => if expired s then None else SessionManager.db m !! id
      | None => SessionManager.db m !! id
      end.
Proof.
  intros m' expired. subst m'. unfold SessionManager.cleanup.
  cut (∀ id,
         SessionManager.sessions
           (map_fold (λ id session acc,
                        if bool_decide
                             (SessionManager.lastActiveAt session
                              < now - maxAge)%Z
                        then SessionManager.deleteSession acc id else acc)
                     m (SessionManager.sessions m)) !! id
         = match SessionManager.sessions m !! id with
           | Some s => if expired s then None
                       else SessionManager.sessions m !! id
           | None => SessionManager.sessions m !! id
           end
         ∧ SessionManager.db
             (map_fold (λ id session acc,
                          if bool_decide
                               (SessionManager.lastActiveAt session
                                < now - maxAge)%Z
                          then SessionManager.deleteSession acc id else acc)
                       m (SessionManager.sessions m)) !! id
           = match SessionManager.sessions m !! id with
             | Some s => if expired s then None else SessionManager.db m !! id
             | None => SessionManager.db m !! id
             end).
  { intros H. destruct (H id) as [Hs Hd]. split; [| done].
    rewrite Hs. destruct (SessionManager.sessions m !! id) as [s|]; [| done].
    by destruct (expired s). }
  apply (map_fold_weak_ind
           (λ acc (seen : gmap string SessionManager.SessionData),
              ∀ id,
                SessionManager.sessions acc !! id
                = match seen !! id with
                  | Some s => if expired s then None
                              else SessionManager.sessions m !! id
                  | None => SessionManager.sessions m !! id
                  end
                ∧ SessionManager.db acc !! id
                  = match seen !! id with
                    | Some s => if expired s then None
                                else SessionManager.db m !! id
                    | None => SessionManager.db m !! id
                    end)).
  - intros id'. by rewrite lookup_empty.
  - intros i x seen acc Hi IH id'. destruct (IH id') as [IHs IHd].
    destruct (decide (id' = i)) as [-> | Hne].
    + rewrite lookup_insert_eq. rewrite Hi in IHs, IHd.
      unfold expired. case_bool_decide; simpl.
      * by rewrite !lookup_delete_eq.
      * done.
    + rewrite lookup_insert_ne by done.
      case_bool_decide; simpl; [| done].
      by rewrite !lookup_delete_ne.
Qed.


(** ** [MessageQueue] *)

Lemma MessageQueue_step_invariant {T : Type} (truthy : T → bool)
    (r : @MessageQueue.run T) (e : MessageQueue.event) :
  MessageQueue.conserved truthy r
  ∧ (MessageQueue.finished r = true →
     MessageQueue.closed (MessageQueue.q r) = true
     ∧ MessageQueue.queue (MessageQueue.q r) = []) →
  MessageQueue.conserved truthy (MessageQueue.step truthy r e)
  ∧ (MessageQueue.finished (MessageQueue.step truthy r e) = true →
     MessageQueue.closed (MessageQueue.q (MessageQueue.step truthy r e)) = true
     ∧ MessageQueue.queue (MessageQueue.q (MessageQueue.step truthy r e)) = []).
Proof.
  unfold MessageQueue.conserved. intros [Hcons Hfin].
  destruct r as [[queue processing closed] yielded accepted finished].
  simpl in *. destruct e as [item | |]; simpl.
  - unfold MessageQueue.add. simpl. destruct closed; simpl; [done |].
    split.
    + rewrite !filter_app, app_assoc. by rewrite Hcons.
    + intros Hf. by destruct (Hfin Hf).
  - split; [done |]. intros Hf. by destruct (Hfin Hf).
  - destruct finished; [done |]. unfold MessageQueue.process_round. simpl.
    destruct queue as [|item rest]; simpl.
    + destruct closed; simpl; [| done]. done.
    + rewrite orb_true_r. rewrite filter_cons in Hcons.
      destruct (truthy item) eqn:Hitem; simpl.
      * rewrite decide_True in Hcons by done.
        split; [| done]. by rewrite <- app_assoc.
      * rewrite decide_False in Hcons by done. done.
Qed.

Lemma MessageQueue_steps_invariant {T : Type} (truthy : T → bool)
    (es : list MessageQueue.event) : ∀ r : @MessageQueue.run T,
  MessageQueue.conserved truthy r
  ∧ (MessageQueue.finished r = true →
     MessageQueue.closed (MessageQueue.q r) = true
     ∧ MessageQueue.queue (MessageQueue.q r) = []) →
  MessageQueue.conserved truthy (MessageQueue.steps truthy r es)
  ∧ (MessageQueue.finished (MessageQueue.steps truthy r es) = true →
     MessageQueue.closed (MessageQueue.q (MessageQueue.steps truthy r es))
     = true
     ∧ MessageQueue.queue (MessageQueue.q (MessageQueue.steps truthy r es))
       = []).
Proof.
  induction es as [|e es IH]; intros r Hr; [done |].
  simpl. apply IH. by apply MessageQueue_step_invariant.
Qed.

(** X17. Whatever the order in which items are added, the queue is closed
    and the consumer takes rounds: the items yielded so far followed by the
    truthy items still queued are exactly the truthy items that [add]
    accepted, in the order of their acceptance. So nothing is lost,
    doubled or reordered, except that a falsy item (an empty string, for
    one) is dropped without a word. And [process] returns only on a queue
    that is closed and empty. *)
Theorem MessageQueue_hands_out_what_it_accepted {T : Type}
    (truthy : T → bool) (es : list MessageQueue.event) :
  let r := MessageQueue.steps truthy MessageQueue.start es in
  MessageQueue.yielded r
    ++ filter (λ x, truthy x = true) (MessageQueue.queue (MessageQueue.q r))
  = filter (λ x, truthy x = true) (MessageQueue.accepted r)
  ∧ (MessageQueue.finished r = true →
     MessageQueue.closed (MessageQueue.q r) = true
     ∧ MessageQueue.queue (MessageQueue.q r) = []).
Proof.
  apply (MessageQueue_steps_invariant truthy es MessageQueue.start).
  split; [reflexivity | discriminate].
Qed.

Lemma MessageQueue_round_cons {T : Type} (truthy : T → bool)
    (r : @MessageQueue.run T) (item : T) (rest : list T) :
  MessageQueue.queue (MessageQueue.q r) = item :: rest →
  MessageQueue.finished r = false →
  MessageQueue.step truthy r MessageQueue.Round
  = MessageQueue.mkRun
      (MessageQueue.mk rest (MessageQueue.processing (MessageQueue.q r))
                       (MessageQueue.closed (MessageQueue.q r)))
      (if truthy item then MessageQueue.yielded r ++ [item]
       else MessageQueue.yielded r)
      (MessageQueue.accepted r) false.
Proof.
  destruct r as [[queue processing closed] yielded accepted finished].
  simpl. intros -> ->. unfold MessageQueue.process_round. simpl.
  rewrite orb_true_r. by destruct (truthy item).
Qed.

Lemma MessageQueue_drain {T : Type} (truthy : T → bool) (l : list T) :
  ∀ r : @MessageQueue.run T,
  MessageQueue.queue (MessageQueue.q r) = l →
  MessageQueue.closed (MessageQueue.q r) = true →
  MessageQueue.finished r = false →
  let r' := MessageQueue.steps truthy r
              (replicate (S (length l)) MessageQueue.Round) in
  MessageQueue.yielded r'
  = MessageQueue.yielded r ++ filter (λ x, truthy x = true) l
  ∧ MessageQueue.accepted r' = MessageQueue.accepted r
  ∧ MessageQueue.finished r' = true
  ∧ MessageQueue.q r' = MessageQueue.mk [] false true.
Proof.
  induction l as [|item rest IH]; intros r Hq Hc Hf.
  - destruct r as [[queue processing closed] yielded accepted finished].
    simpl in *. subst. simpl. by rewrite app_nil_r.
  - change (replicate (S (length (item :: rest))) MessageQueue.Round)
      with (MessageQueue.Round
              :: replicate (S (length rest)) (@MessageQueue.Round T)).
    change (MessageQueue.steps truthy r (MessageQueue.Round :: ?es))
      with (MessageQueue.steps truthy
              (MessageQueue.step truthy r MessageQueue.Round) es).
    rewrite (MessageQueue_round_cons truthy r item rest Hq Hf).
    match goal with
    | |- context [MessageQueue.steps truthy ?r1 _] =>
        destruct (IH r1 eq_refl Hc eq_refl) as (Hy & Ha & Hfin & Hq')
    end.
    cbv zeta. rewrite Hy, Ha, Hfin, Hq'. simpl.
    rewrite filter_cons. destruct (truthy item); simpl.
    + destruct (decide (true = true)) as [_ |]; [| done].
      by rewrite <- app_assoc.
    + by destruct (decide (false = true)) as [| _].
Qed.

(** X18. Closing a queue does not discard what is queued: on a closed
    queue with [n] items, [n + 1] rounds of [process] yield its truthy
    items in order and then leave the loop with the queue empty and
    [processing] false. Meanwhile and afterwards [add] throws
    ["Queue is closed"] and changes nothing. *)
Theorem MessageQueue_close_drains {T : Type} (truthy : T → bool)
    (r : @MessageQueue.run T) :
  MessageQueue.closed (MessageQueue.q r) = true →
  MessageQueue.finished r = false →
  let r' := MessageQueue.steps truthy r
              (replicate (S (length (MessageQueue.queue (MessageQueue.q r))))
                         MessageQueue.Round) in
  MessageQueue.yielded r'
  = MessageQueue.yielded r
    ++ filter (λ x, truthy x = true) (MessageQueue.queue (MessageQueue.q r))
  ∧ MessageQueue.finished r' = true
  ∧ MessageQueue.q r' = MessageQueue.mk [] false true
  ∧ (∀ item,
       MessageQueue.add (MessageQueue.q r) item = inr "Queue is closed"
       ∧ MessageQueue.step truthy r (MessageQueue.Add item) = r
       ∧ MessageQueue.step truthy r' (MessageQueue.Add item) = r').
Proof.
  intros Hclosed Hfin r'.
  destruct (MessageQueue_drain truthy _ r eq_refl Hclosed Hfin)
    as (Hy & _ & Hf & Hq).
  fold r' in Hy, Hf, Hq. repeat split; try done.
  - unfold MessageQueue.add. by rewrite Hclosed.
  - simpl. unfold MessageQueue.add. by rewrite Hclosed.
  - simpl. unfold MessageQueue.add. by rewrite Hq.
Qed.

(** An instance on strings, of which the empty one is falsy: three items
    are added, the queue is closed, a fourth item is refused. *)
Lemma MessageQueue_close_drains_witness :
  let truthy := λ s : string, negb (bool_decide (s = "")) in
  let r := MessageQueue.steps truthy MessageQueue.start
             [MessageQueue.Add "a"; MessageQueue.Add "";
              MessageQueue.Add "b"; MessageQueue.Close;
              MessageQueue.Add "c"] in
  MessageQueue.accepted r = ["a"; ""; "b"]
  ∧ MessageQueue.yielded
      (MessageQueue.steps truthy r (replicate 4 MessageQueue.Round))
    = ["a"; "b"]
  ∧ MessageQueue.finished
      (MessageQueue.steps truthy r (replicate 4 MessageQueue.Round)) = true.
Proof.
  intros truthy r.
  destruct (MessageQueue_close_drains truthy r eq_refl eq_refl)
    as (Hy & Hf & _).
  split; [reflexivity |]. split; [exact Hy | exact Hf].
Defined.

(** ** [queryWithRetry] *)

Lemma Retry_attempt_loop_step (m : sdk_message) (msgs : list sdk_message)
    (failure : option string) (messages : list sdk_message) :
  AIClient.is_success m = false →
  Retry.attempt_loop (m :: msgs) failure messages
  = Retry.attempt_loop msgs failure (messages ++ [m]).
Proof.
  intros Hm. destruct m; try reflexivity. simpl in *. by rewrite Hm.
Qed.

Lemma Retry_attempt_loop_no_success (msgs : list sdk_message)
    (failure : option string) : ∀ messages,
  Forall (λ m, AIClient.is_success m = false) msgs →
  Retry.attempt_loop msgs failure messages
  = match failure with
    | Some error => inr error
    | None => inl (false, messages ++ msgs)
    end.
Proof.
  induction msgs as [|m msgs IH]; intros messages Hno.
  - simpl. by rewrite app_nil_r.
  - apply Forall_cons in Hno as [Hm Hno].
    rewrite (Retry_attempt_loop_step _ _ _ _ Hm), (IH _ Hno).
    destruct failure; [done |]. by rewrite <- app_assoc.
Qed.

Lemma Retry_attempt_loop_success (pre post : list sdk_message)
    (failure : option string) (result cost duration : value) :
  ∀ messages,
  Forall (λ m, AIClient.is_success m = false) pre →
  Retry.attempt_loop
    (pre ++ ResultMsg "success" result cost duration :: post)
    failure messages
  = inl (true, messages ++ pre ++ [ResultMsg "success" result cost duration]).
Proof.
  induction pre as [|m pre IH]; intros messages Hno.
  - reflexivity.
  - apply Forall_cons in Hno as [Hm Hno].
    change ((m :: pre) ++ ?l) with (m :: (pre ++ l)).
    rewrite (Retry_attempt_loop_step _ _ _ _ Hm), (IH _ Hno).
    by rewrite <- app_assoc.
Qed.

Lemma Retry_loop_S (engine : nat → Stream) (left attempt : nat)
    (last : option string) (sleeps : list Z) :
  Retry.retry_loop engine (S left) attempt last sleeps
  = match Retry.attempt (engine attempt) with
    | inl (success, messages) => (Retry.Returned success messages, sleeps)
    | inr error =>
        Retry.retry_loop engine left (S attempt) (Some error)
          (match left with
           | 0 => sleeps
           | S _ => sleeps ++ [1000 * Z.of_nat attempt]%Z
           end)
    end.
Proof. reflexivity. Qed.

Lemma Retry_loop_failures (engine : nat → Stream) (err : nat → string) :
  ∀ n left attempt last sleeps,
  n < left →
  (∀ j, j < n →
        Retry.attempt (engine (attempt + j)) = inr (err (attempt + j))) →
  Retry.retry_loop engine left attempt last sleeps
  = Retry.retry_loop engine (left - n) (attempt + n)
      (match n with 0 => last | S _ => Some (err (attempt + n - 1)) end)
      (sleeps ++ ((λ j, 1000 * Z.of_nat j)%Z <$> seq attempt n)).
Proof.
  induction n as [|n IH]; intros left attempt last sleeps Hlt Hfail.
  - simpl. by rewrite Nat.sub_0_r, Nat.add_0_r, app_nil_r.
  - destruct left as [|left]; [lia |].
    destruct left as [|left]; [lia |].
    assert (Retry.attempt (engine attempt) = inr (err attempt)) as H0.
    { specialize (Hfail 0). rewrite Nat.add_0_r in Hfail.
      apply Hfail. lia. }
    rewrite Retry_loop_S, H0.
    rewrite (IH (S left) (S attempt) (Some (err attempt))
                (sleeps ++ [(1000 * Z.of_nat attempt)%Z])).
    + replace (S left - n) with (S (S left) - S n) by lia.
      replace (S attempt + n) with (attempt + S n) by lia.
      cbn [seq fmap list_fmap]. rewrite <- app_assoc. cbn [app].
      f_equal. destruct n as [|n]; do 2 f_equal; lia.
    + lia.
    + intros j Hj. replace (S attempt + j) with (attempt + S j) by lia.
      apply Hfail. lia.
Qed.

(** X19. In one attempt of [queryWithRetry] the first result message with
    subtype "success" ends the call with [success: true] and the messages
    up to and including it; what the engine would have sent after it, a
    failure included, is never seen. A stream that ends without such a
    message gives [success: false] with all its messages, and only a
    stream that throws without one makes the attempt fail. *)
Theorem Retry_attempt_stops_at_first_success (pre post : list sdk_message)
    (failure : option string) (result cost duration : value) :
  Forall (λ m, AIClient.is_success m = false) pre →
  Retry.attempt
    (pre ++ ResultMsg "success" result cost duration :: post, failure)
  = inl (true, pre ++ [ResultMsg "success" result cost duration])
  ∧ Retry.attempt (pre, None) = inl (false, pre)
  ∧ ∀ error, Retry.attempt (pre, Some error) = inr error.
Proof.
  intros Hno. unfold Retry.attempt. simpl. repeat split.
  - by rewrite Retry_attempt_loop_success.
  - by rewrite Retry_attempt_loop_no_success.
  - intros error. by rewrite Retry_attempt_loop_no_success.
Qed.

(** A stream that throws after its success result is a successful
    attempt. *)
Lemma Retry_attempt_stops_at_first_success_witness :
  Retry.attempt
    ([AssistantMsg (ArrContent [TextBlock "hi"]);
      ResultMsg "success" (VStr "hi") (VNum 1) (VNum 20);
      AssistantMsg (ArrContent [TextBlock "more"])], Some "socket closed")
  = inl (true, [AssistantMsg (ArrContent [TextBlock "hi"]);
                ResultMsg "success" (VStr "hi") (VNum 1) (VNum 20)]).
Proof.
  apply (Retry_attempt_stops_at_first_success
           [AssistantMsg (ArrContent [TextBlock "hi"])]
           [AssistantMsg (ArrContent [TextBlock "more"])]
           (Some "socket closed") (VStr "hi") (VNum 1) (VNum 20)).
  repeat constructor.
Defined.

(** X20. [queryWithRetry] makes attempts 1, 2, ... up to [maxRetries]. The
    first attempt that does not throw decides the result, a run that ends
    without a success result included: that one is returned with
    [success: false] and is not retried. Before attempt [k + 1] the call
    has slept 1000, 2000, ..., 1000 * k ms. When all [maxRetries] attempts
    throw, the call throws the error of the last one, having slept after
    every attempt but the last. With [maxRetries] at most 0 no attempt is
    made and the call throws [null]. *)
Theorem queryWithRetry_first_attempt_that_returns_decides
    (engine : nat → Stream) (err : nat → string) (n k : nat) :
  k ≤ n →
  (∀ j, j < k → Retry.attempt (engine (1 + j)) = inr (err (1 + j))) →
  (∀ success messages,
     k < n →
     Retry.attempt (engine (1 + k)) = inl (success, messages) →
     Retry.queryWithRetry engine (Z.of_nat n)
     = (Retry.Returned success messages,
        (λ j, 1000 * Z.of_nat j)%Z <$> seq 1 k))
  ∧ (k = n →
     Retry.queryWithRetry engine (Z.of_nat n)
     = (Retry.Thrown (match n with 0 => None | S _ => Some (err n) end),
        (λ j, 1000 * Z.of_nat j)%Z <$> seq 1 (n - 1)))
  ∧ (∀ maxRetries, (maxRetries ≤ 0)%Z →
       Retry.queryWithRetry engine maxRetries = (Retry.Thrown None, [])).
Proof.
  intros Hk Hfail. unfold Retry.queryWithRetry. repeat split.
  - intros success messages Hlt Hret. rewrite Nat2Z.id.
    rewrite (Retry_loop_failures engine err k n 1 None [] Hlt Hfail).
    destruct (n - k) as [|left] eqn:Hleft; [lia |].
    by rewrite Retry_loop_S, Hret.
  - intros ->. rewrite Nat2Z.id. destruct n as [|n]; [reflexivity |].
    rewrite (Retry_loop_failures engine err n (S n) 1 None []);
      [| lia | intros j Hj; apply Hfail; lia].
    replace (S n - n) with 1 by lia.
    rewrite Retry_loop_S, (Hfail n) by lia. simpl.
    by rewrite Nat.sub_0_r.
  - intros maxRetries Hle.
    replace (Z.to_nat maxRetries) with 0 by lia. reflexivity.
Qed.

(** Two attempts throw, the third ends with an error result: the call
    returns [success: false] after sleeps of one and two seconds, and the
    fourth attempt is never made. *)
Lemma queryWithRetry_first_attempt_that_returns_decides_witness :
  let engine := λ attempt : nat,
    if bool_decide (attempt < 3)
    then ([init_msg "tok"], Some "overloaded")
    else ([ResultMsg "error_max_turns" VUndefined (VNum 1) (VNum 20)], None)
  in
  Retry.queryWithRetry engine 4
  = (Retry.Returned false
       [ResultMsg "error_max_turns" VUndefined (VNum 1) (VNum 20)],
     [1000; 2000]%Z).
Proof.
  intros engine.
  assert (2 ≤ 4) as Hk by lia.
  assert (∀ j, j < 2 →
               Retry.attempt (engine (1 + j))
               = inr ((λ _, "overloaded") (1 + j))) as Hfail.
  { intros j Hj. destruct j as [|[|j]]; [reflexivity | reflexivity | lia]. }
  destruct (queryWithRetry_first_attempt_that_returns_decides
              engine (λ _, "overloaded") 4 2 Hk Hfail) as (Hret & _ & _).
  apply (Hret false
           [ResultMsg "error_max_turns" VUndefined (VNum 1) (VNum 20)]);
    [lia | reflexivity].
Defined.
